(** * A same-site web crawler with a whole-word search index

    Shallow embedding of [src/main.py] (class [WebCrawler]) and the
    properties of its [crawl] and [search] methods.

    Conventions of the embedding.
    - Python [str] values are [string]s; the characters that are modelled
      are the ASCII ones (code points below 128), on which the word class
      and the case folding below are those of [re].  The statements about
      matching say so: they are about ASCII keywords and ASCII texts
      ([is_ascii], [ascii_texts]).
    - [self.visited] (a Python [set]) is a [gset string].
    - [self.index] (a Python [dict], which iterates in insertion order) is
      an association list with unique keys, updated in place.
    - The external collaborators ([requests.get], [BeautifulSoup],
      [urllib.parse.urljoin]) are parameters of the crawl engine.  Each of
      them can raise inside the [try] block: the request, the parser
      (before the index entry is made, or in [find_all] after it), and
      [urljoin] inside the loop.  Whatever makes a collaborator raise, a
      [RecursionError] on a deep call stack included, is a failure of
      that collaborator in [Web].
    - [crawl] is recursive over the link graph, which may be infinite; it is
      defined with a fuel argument that bounds the recursion depth, and
      [None] stands for an exhausted budget only. *)

From Stdlib Require Import String Ascii List Bool Arith Lia.
From stdpp Require Import base gmap sets list strings.

Set Warnings "-clear-no-such-hyp".

Open Scope string_scope.
Open Scope list_scope.

(** ** Characters *)

Module Char.

Definition code (c : ascii) : nat := nat_of_ascii c.

Definition between (lo hi : nat) (c : ascii) : bool :=
  Nat.leb lo (code c) && Nat.leb (code c) hi.

Definition is_upper (c : ascii) : bool := between 65 90 c.
Definition is_lower (c : ascii) : bool := between 97 122 c.
Definition is_digit (c : ascii) : bool := between 48 57 c.

Definition is_alnum (c : ascii) : bool :=
  is_upper c || is_lower c || is_digit c.

(** The class [\w] of the [re] module, on ASCII characters. *)
Definition is_word (c : ascii) : bool := is_alnum c || Ascii.eqb c "_".

(** Case folding used by [re.IGNORECASE], on ASCII characters. *)
Definition lower (c : ascii) : ascii :=
  if is_upper c then ascii_of_nat (code c + 32) else c.

Definition eqb_nocase (a b : ascii) : bool := Ascii.eqb (lower a) (lower b).

Definition dquote : ascii := "034"%char.
Definition backslash : ascii := "\"%char.

End Char.

(** ** The fragment of the [re] module used by [search] *)

Module Re.

(** [re.escape]: the characters of [_special_chars_map] get a backslash. *)
Definition special_chars : list nat :=
  [40; 41; 91; 93; 123; 125; 63; 42; 43; 45; 124; 94; 36; 92; 46; 38; 126;
   35; 32; 9; 10; 13; 11; 12].

Definition needs_escape (c : ascii) : bool :=
  existsb (Nat.eqb (Char.code c)) special_chars.

Fixpoint escape (s : string) : string :=
  match s with
  | "" => ""
  | String c s' =>
      if needs_escape c then String Char.backslash (String c (escape s'))
      else String c (escape s')
  end.

(** Compiled patterns: a sequence of word-boundary assertions and literal
    characters.  Nothing else can come out of [r'\b' + re.escape(k) + r'\b']. *)
Inductive item : Type :=
| Boundary
| Lit (c : ascii).

(** The pattern parser's [SPECIAL_CHARS]: [.\[{()*+?^$|]. *)
Definition is_meta (c : ascii) : bool :=
  existsb (Nat.eqb (Char.code c)) [46; 92; 91; 123; 40; 41; 42; 43; 63; 94; 36; 124].

(** Parsing of a pattern string.  [\b] is the boundary assertion, a
    backslash before a character that is not alphanumeric makes it a
    literal, a character that is not special is a literal.  [None] is a
    pattern outside this fragment (or one that [re] rejects). *)
Fixpoint parse (p : string) : option (list item) :=
  match p with
  | "" => Some []
  | String c rest =>
      if Ascii.eqb c Char.backslash then
        match rest with
        | "" => None
        | String e rest' =>
            if Ascii.eqb e "b" then cons Boundary <$> parse rest'
            else if Char.is_alnum e then None
            else cons (Lit e) <$> parse rest'
        end
      else if is_meta c then None
      else cons (Lit c) <$> parse rest
  end.

Definition word_before (prev : option ascii) : bool :=
  match prev with Some c => Char.is_word c | None => false end.

Definition word_after (s : string) : bool :=
  match s with String c _ => Char.is_word c | "" => false end.

(** [\b]: exactly one of the two neighbouring positions holds a word
    character (a missing neighbour counts as a non-word character). *)
Definition at_boundary (prev : option ascii) (s : string) : bool :=
  xorb (word_before prev) (word_after s).

(** Matching at the current position, with [prev] the character just
    before it; literals are compared under [re.IGNORECASE]. *)
Fixpoint match_here (pat : list item) (prev : option ascii) (s : string) : bool :=
  match pat with
  | [] => true
  | Boundary :: pat' => at_boundary prev s && match_here pat' prev s
  | Lit c :: pat' =>
      match s with
      | "" => false
      | String ch s' => Char.eqb_nocase ch c && match_here pat' (Some ch) s'
      end
  end.

(** [re.search]: try every start position, left to right. *)
Fixpoint search_from (pat : list item) (prev : option ascii) (s : string) : bool :=
  match_here pat prev s
  || match s with
     | "" => false
     | String ch s' => search_from pat (Some ch) s'
     end.

(** [re.search(pattern, text, re.IGNORECASE)] as a truth value; [None]
    when the pattern does not compile. *)
Definition search (pattern text : string) : option bool :=
  pat ← parse pattern; Some (search_from pat None text).

End Re.

(** ** The text index *)

Definition Index : Type := list (string * string).

(** [d[k] = v] on a dict: an existing key keeps its position. *)
Fixpoint dict_set (k v : string) (d : Index) : Index :=
  match d with
  | [] => [(k, v)]
  | (k', v') :: d' =>
      if String.eqb k k' then (k, v) :: d' else (k', v') :: dict_set k v d'
  end.

Fixpoint dict_get (k : string) (d : Index) : option string :=
  match d with
  | [] => None
  | (k', v') :: d' => if String.eqb k k' then Some v' else dict_get k d'
  end.

Definition dict_keys (d : Index) : list string := map fst d.

(** ** [WebCrawler.search] *)

Definition word_pattern (keyword : string) : string :=
  "\b" +:+ Re.escape keyword +:+ "\b".

(** The loop of [search] over [self.index.items()]; [None] when
    [re.search] raises. *)
Fixpoint search_items (items : Index) (keyword : string) : option (list string) :=
  match items with
  | [] => Some []
  | (url, text) :: rest =>
      m ← Re.search (word_pattern keyword) text;
      results ← search_items rest keyword;
      Some (if m : bool then url :: results else results)
  end.

(** ** The crawler object *)

(** Exceptions that reach the handler of [crawl]: a failed [requests.get],
    the [ValueError] of [urljoin] on a malformed reference, and whatever
    the parser raises ([BeautifulSoup(...)], [get_text] or [find_all]:
    bs4's [ParserRejectedMarkup] around the [AssertionError] of
    [html.parser], a [RecursionError] on a deep call stack). *)
Inductive exn : Type :=
| RequestException
| ValueError
| ParserError.

(** [index] and [visited] are the attributes of the object.  [requests] is
    the sequence of URLs on which [requests.get] was called and [stdout]
    the lines printed by the handler; both are observations of the run that
    the source does not store. *)
Record WebCrawler : Type := mkWebCrawler {
  index : Index;
  visited : gset string;
  requests : list string;
  stdout : list (string * exn)
}.

(** [WebCrawler()] *)
Definition new_crawler : WebCrawler :=
  {| index := []; visited := ∅; requests := []; stdout := [] |}.

Definition add_visited (url : string) (st : WebCrawler) : WebCrawler :=
  {| index := index st; visited := visited st ∪ {[url]};
     requests := requests st; stdout := stdout st |}.

Definition log_request (url : string) (st : WebCrawler) : WebCrawler :=
  {| index := index st; visited := visited st;
     requests := requests st ++ [url]; stdout := stdout st |}.

Definition set_index (url text : string) (st : WebCrawler) : WebCrawler :=
  {| index := dict_set url text (index st); visited := visited st;
     requests := requests st; stdout := stdout st |}.

Definition print_error (url : string) (e : exn) (st : WebCrawler) : WebCrawler :=
  {| index := index st; visited := visited st;
     requests := requests st; stdout := stdout st ++ [(url, e)] |}.

Definition search (st : WebCrawler) (keyword : string) : option (list string) :=
  search_items (index st) keyword.

(** How a [try] block ends. *)
Inductive outcome : Type :=
| Normal
| Raised (e : exn).

(** [base_url or url]: [None] and the empty string are falsy. *)
Definition base_or (base_url : option string) (url : string) : string :=
  match base_url with
  | Some b => if String.eqb b "" then url else b
  | None => url
  end.

(** A parsed page.  [soup_text] is [soup.get_text()].  [soup_anchors] is
    [link.get('href')] for each [link] of [soup.find_all('a')], in
    document order, with [None] for an anchor without the attribute; it
    is [None] as a whole when [find_all] raises. *)
Record Soup : Type := mkSoup {
  soup_text : string;
  soup_anchors : option (list (option string))
}.

(** The external collaborators of the crawl engine. *)
Record Web : Type := mkWeb {
  (** [requests.get(url).text], or [None] when the call raises. *)
  requests_get : string → option string;
  (** [BeautifulSoup(content, 'html.parser')] with its text; [None] when
      the constructor or [get_text] raises. *)
  soup : string → option Soup;
  (** [urljoin(base, href)], or [None] when it raises [ValueError]. *)
  urljoin : string → string → option string
}.

(** The text of a page that parses (the empty text stands for a page that
    does not). *)
Definition get_text (web : Web) (content : string) : string :=
  from_option soup_text "" (soup web content).

(** The anchors of a page that parses and whose anchors can be listed (no
    anchor otherwise). *)
Definition find_all_a (web : Web) (content : string) : list (option string) :=
  default [] (soup web content ≫= soup_anchors).

(** The text stored for [url]: its fetch succeeds and [BeautifulSoup] and
    [get_text] return. *)
Definition page_text (web : Web) (url : string) : option string :=
  content ← requests_get web url; soup_text <$> soup web content.

Section Crawl.

Variable web : Web.

(** The [for link in soup.find_all('a')] loop; [self_crawl] is the
    recursive call and [scope] the value of [base_url or url]. *)
Fixpoint crawl_links (self_crawl : string → option string → WebCrawler → option WebCrawler)
    (scope : string) (links : list (option string)) (st : WebCrawler)
    : option (WebCrawler * outcome) :=
  match links with
  | [] => Some (st, Normal)
  | None :: rest => crawl_links self_crawl scope rest st
  | Some href :: rest =>
      if String.eqb href "" then crawl_links self_crawl scope rest st
      else
        match urljoin web scope href with
        | None => Some (st, Raised ValueError)
        | Some target =>
            if String.prefix scope target then
              st' ← self_crawl target (Some scope) st;
              crawl_links self_crawl scope rest st'
            else crawl_links self_crawl scope rest st
        end
  end.

(** The body of the [try] block. *)
Definition try_body (self_crawl : string → option string → WebCrawler → option WebCrawler)
    (url : string) (base_url : option string) (st : WebCrawler)
    : option (WebCrawler * outcome) :=
  let st := log_request url st in
  match requests_get web url with
  | None => Some (st, Raised RequestException)
  | Some content =>
      match soup web content with
      | None => Some (st, Raised ParserError)
      | Some page =>
          let st := set_index url (soup_text page) st in
          match soup_anchors page with
          | None => Some (st, Raised ParserError)
          | Some links =>
              crawl_links self_crawl (base_or base_url url) links st
          end
      end
  end.

(** [except Exception as e: print(...)] *)
Definition handler (url : string) (r : WebCrawler * outcome) : WebCrawler :=
  match r.2 with
  | Normal => r.1
  | Raised e => print_error url e r.1
  end.

(** [WebCrawler.crawl]: the visited test, the insertion in [visited], then
    the [try] block under its handler.  [fuel] bounds the depth of the
    recursion. *)
Fixpoint crawl (fuel : nat) (url : string) (base_url : option string)
    (st : WebCrawler) : option WebCrawler :=
  match fuel with
  | O => None
  | S fuel' =>
      if bool_decide (url ∈ visited st) then Some st
      else handler url <$> try_body (crawl fuel') url base_url (add_visited url st)
  end.


(** *** What one invocation adds to the object

    [grows P st new st']: going from [st] to [st'], [requests.get] was
    called on the URLs [new], in this order, each of them once, none of
    them visited in [st], all of them satisfying [P]; they are exactly
    the URLs added to [visited]; and the index entry of a URL changed
    only if it is one of them, its fetch succeeded and its page parsed. *)
Definition indexed_after (new : list string) (old : Index) (x : string)
    : option string :=
  if bool_decide (x ∈ new) then
    match page_text web x with
    | Some text => Some text
    | None => dict_get x old
    end
  else dict_get x old.

Definition grows (P : string → Prop) (st : WebCrawler) (new : list string)
    (st' : WebCrawler) : Prop :=
  requests st' = (requests st ++ new)
  ∧ NoDup new
  ∧ visited st' = visited st ∪ list_to_set new
  ∧ (∀ x, x ∈ new → ¬ (x ∈ visited st) ∧ P x)
  ∧ (∀ x, dict_get x (index st') = indexed_after new (index st) x).

(** The configurations [(url, base_url)] on which [crawl] can be called,
    starting from [(url0, base0)] and following links that are in scope. *)
Inductive call_reach (url0 : string) (base0 : option string)
    : string → option string → Prop :=
| reach_start : call_reach url0 base0 url0 base0
| reach_link url base_url content href target :
    call_reach url0 base0 url base_url →
    requests_get web url = Some content →
    Some href ∈ find_all_a web content →
    href ≠ "" →
    urljoin web (base_or base_url url) href = Some target →
    String.prefix (base_or base_url url) target = true →
    call_reach url0 base0 target (Some (base_or base_url url)).

(** What is known of a call of [crawl] that returns. *)
Definition in_scope (url : string) (base_url : option string) (x : string)
    : Prop :=
  x = url ∨ String.prefix (base_or base_url url) x = true.

Definition crawl_ok
    (self_crawl : string → option string → WebCrawler → option WebCrawler)
    : Prop :=
  ∀ url base_url st st',
    self_crawl url base_url st = Some st' →
    url ∈ visited st' ∧ ∃ new, grows (in_scope url base_url) st new st'.

(** The links of a page that the loop reaches: those before the first
    reference on which [urljoin] raises. *)
Definition resolves (scope : string) (link : option string) : Prop :=
  ∀ href, link = Some href → href ≠ "" → is_Some (urljoin web scope href).

(** The calls that the loop of the call [(url, base_url)] can make. *)
Definition link_call (scope : string) (link : option string)
    : option (string * option string) :=
  href ← link;
  if String.eqb href "" then None
  else
    target ← urljoin web scope href;
    if String.prefix scope target then Some (target, Some scope) else None.

Definition successors (call : string * option string)
    : list (string * option string) :=
  match requests_get web call.1 with
  | None => []
  | Some content =>
      omap (link_call (base_or call.2 call.1)) (find_all_a web content)
  end.

(** A list of calls that holds all the calls its members can make. *)
Definition closed_calls (calls : list (string * option string)) : bool :=
  forallb (λ call, forallb (λ next, bool_decide (next ∈ calls)) (successors call))
    calls.

End Crawl.

(** ** The notions the specification is written in *)

(** Origin of a URL: scheme and authority, up to the first [/], [?] or [#]
    after [://]. *)
Fixpoint authority (s : string) : string :=
  match s with
  | "" => ""
  | String c s' =>
      if Ascii.eqb c "/" || Ascii.eqb c "?" || Ascii.eqb c "#" then ""
      else String c (authority s')
  end.

Fixpoint origin (u : string) : string :=
  match u with
  | "" => ""
  | String c u' =>
      if String.prefix "://" u
      then "://" +:+ authority (substring 3 (String.length u - 3) u)
      else String c (origin u')
  end.

Fixpoint eqb_nocase (a b : string) : bool :=
  match a, b with
  | "", "" => true
  | String x a', String y b' => Char.eqb_nocase x y && eqb_nocase a' b'
  | _, _ => false
  end.

Fixpoint last_char (prev : option ascii) (s : string) : option ascii :=
  match s with
  | "" => prev
  | String c s' => last_char (Some c) s'
  end.

(** Whole-word occurrence in the words of the specification: an occurrence
    that is not adjacent to a word character on either side. *)
Definition whole_word_occurrence (keyword text : string) : Prop :=
  ∃ pre mid post,
    text = pre +:+ mid +:+ post
    ∧ eqb_nocase mid keyword = true
    ∧ Re.word_before (last_char None pre) = false
    ∧ Re.word_after post = false.

(** What the pattern [\b keyword \b] asks for: an occurrence with a word
    boundary of [re] at each end. *)
Definition bounded_occurrence (keyword text : string) : Prop :=
  ∃ pre mid post,
    text = pre +:+ mid +:+ post
    ∧ eqb_nocase mid keyword = true
    ∧ Re.at_boundary (last_char None pre) (mid +:+ post) = true
    ∧ Re.at_boundary (last_char None (pre +:+ mid)) post = true.

Definition has_word_char (text : string) : bool :=
  existsb Char.is_word (list_ascii_of_string text).

(** The strings on which the matcher above is the matcher of [re]: ASCII
    texts (every code point below 128).  Outside them [re] uses the word
    class and the case folding of Unicode. *)
Definition is_ascii (s : string) : bool :=
  forallb (λ c, Nat.ltb (Char.code c) 128) (list_ascii_of_string s).

(** An index whose values are ASCII texts. *)
Definition ascii_texts (d : Index) : Prop :=
  Forall (λ p, is_ascii p.2 = true) d.

(** A web whose pages have ASCII texts. *)
Definition ascii_web (web : Web) : Prop :=
  ∀ url text, page_text web url = Some text → is_ascii text = true.

(** ** Fixtures: a small web *)

Module Fixture.

Record page : Type := mkPage {
  p_url : string;
  p_content : string;
  p_text : string;
  p_hrefs : list (option string)
}.

Definition json : string :=
  Eval vm_compute in
    "{" +:+ String Char.dquote "json" +:+ String Char.dquote ": true}".

Definition pages : list page :=
  [ mkPage "https://example.com"
      "<h1>Welcome!</h1><a href='/about'>About Us</a><a href='https://www.external.com'>External Link</a><a href='https://example.com.evil.com'>Mirror</a>"
      "Welcome!About UsExternal LinkMirror"
      [Some "/about"; Some "https://www.external.com";
       Some "https://example.com.evil.com"];
    mkPage "https://example.com/about" "<p>About this site</p>"
      "About this site" [];
    mkPage "https://www.external.com" "<p>Elsewhere</p>" "Elsewhere" [];
    mkPage "https://example.com.evil.com" "<p>Another host</p>"
      "Another host" [];
    mkPage "https://dup.test"
      "<a href='/about'>About Us</a><a href='/about'>About Us Again</a>"
      "About UsAbout Us Again" [Some "/about"; Some "/about"];
    mkPage "https://dup.test/about" "<p>About dup</p>" "About dup" [];
    mkPage "https://cycle.test" "<a href='/b'>to B</a>" "to B" [Some "/b"];
    mkPage "https://cycle.test/b" "<a href='https://cycle.test'>to A</a>"
      "to A" [Some "https://cycle.test"];
    mkPage "https://bad.test"
      "<a href='/first'>one</a><a href='https://[bad'>two</a><a href='/second'>three</a>"
      "onetwothree" [Some "/first"; Some "https://[bad"; Some "/second"];
    mkPage "https://bad.test/first" "<p>first</p>" "first" [];
    mkPage "https://bad.test/second" "<p>second</p>" "second" [];
    mkPage "https://fail.test" "<a href='/b'>B</a><a href='/c'>C</a>" "BC"
      [Some "/b"; Some "/c"];
    mkPage "https://fail.test/c" "<p>C</p>" "C" [];
    mkPage "https://api.test/data" json json [];
    mkPage "https://broken.test" "a <![ b" "" [] ].

Definition by_url (u : string) : option page :=
  List.find (λ p, String.eqb (p_url p) u) pages.

Definition by_content (c : string) : option page :=
  List.find (λ p, String.eqb (p_content p) c) pages.

Fixpoint contains (c : ascii) (s : string) : bool :=
  match s with
  | "" => false
  | String x s' => Ascii.eqb x c || contains c s'
  end.

Definition has_authority (href : string) : bool :=
  String.prefix "https://" href || String.prefix "http://" href.

Fixpoint after_scheme (u : string) : string :=
  match u with
  | "" => ""
  | String c u' =>
      if String.prefix "://" u then substring 3 (String.length u - 3) u
      else after_scheme u'
  end.

Definition netloc (href : string) : string := authority (after_scheme href).

(** [urlsplit] rejects a network location with one bracket only
    ("Invalid IPv6 URL"). *)
Definition unbalanced (n : string) : bool :=
  xorb (contains "[" n) (contains "]" n).

(** [urljoin] on the references of the fixtures: an absolute [http(s)]
    URL of the scheme of the base is returned as it is, a reference that
    starts with [/] replaces the path of the base.  References of other
    forms (relative paths, queries, fragments) do not occur in the
    fixtures; they are returned unchanged, which is what [urljoin] does
    for an empty base. *)
Definition resolve (base href : string) : option string :=
  if has_authority href then
    if unbalanced (netloc href) then None else Some href
  else if String.prefix "/" href then Some (origin base +:+ href)
  else Some href.

(** [html.parser] rejects an unterminated marked section. *)
Definition rejected (content : string) : bool := String.eqb content "a <![ b".

Definition web : Web :=
  {| requests_get u := p_content <$> by_url u;
     soup c :=
       if rejected c then None
       else Some {| soup_text := from_option p_text c (by_content c);
                    soup_anchors := Some (from_option p_hrefs [] (by_content c)) |};
     urljoin := resolve |}.

End Fixture.

(** The compiled form of [word_pattern keyword]. *)
Fixpoint literals (s : string) : list Re.item :=
  match s with
  | "" => []
  | String c s' => Re.Lit c :: literals s'
  end.

Definition compiled (keyword : string) : list Re.item :=
  Re.Boundary :: literals keyword ++ [Re.Boundary].

Definition matches (keyword text : string) : bool :=
  Re.search_from (compiled keyword) None text.

(** A keyword whose first and last characters are word characters. *)
Definition word_edged (keyword : string) : bool :=
  Re.word_after keyword && Re.word_before (last_char None keyword).

Definition matching_urls (keyword : string) (items : Index) : list string :=
  map fst (List.filter (λ p, matches keyword p.2) items).

(** ** [WebCrawler.print_results]

    The lines written to the standard output. *)
Definition print_results (results : list string) : list string :=
  match results with
  | [] => ["No results found."]
  | _ :: _ => "Search results:" :: map (λ result, "- " +:+ result) results
  end.

(** ** Observations of a run *)

(** The index entries made for the URLs [new], requested in this order. *)
Definition indexed_pages (web : Web) (new : list string) : Index :=
  omap (λ url, text ← page_text web url; Some (url, text)) new.

(** The page behind [url] can be fetched and parsed, and its text matches
    [keyword]. *)
Definition fetch_matches (web : Web) (keyword url : string) : bool :=
  from_option (matches keyword) false (page_text web url).

(** The keys of the index are visited URLs. *)
Definition keys_visited (st : WebCrawler) : Prop :=
  ∀ k, In k (dict_keys (index st)) → k ∈ visited st.

(** The parser raises on [content]: in the constructor or in [get_text],
    or in [find_all]. *)
Definition parse_fails (web : Web) (content : string) : Prop :=
  match soup web content with
  | None => True
  | Some page => soup_anchors page = None
  end.

(** [traced web P st new reports st']: [grows], together with the lines
    [reports] printed on the way and the entries appended to the index. *)
Definition traced (web : Web) (P : string → Prop) (st : WebCrawler)
    (new : list string) (reports : list (string * exn)) (st' : WebCrawler)
    : Prop :=
  grows web P st new st'
  ∧ stdout st' = stdout st ++ reports
  ∧ (∀ u, u ∈ reports.*1 → u ∈ new)
  ∧ (∀ u, u ∈ new → requests_get web u = None →
          (u, RequestException) ∈ reports)
  ∧ (∀ u content,
       u ∈ new → requests_get web u = Some content → parse_fails web content →
       (u, ParserError) ∈ reports)
  ∧ NoDup reports.*1
  ∧ (keys_visited st → index st' = index st ++ indexed_pages web new).

Definition crawl_traced
    (web : Web)
    (self_crawl : string → option string → WebCrawler → option WebCrawler)
    : Prop :=
  ∀ url base_url st st',
    self_crawl url base_url st = Some st' →
    ∃ new reports, traced web (in_scope url base_url) st new reports st'.

(** Texts that differ by the case of their letters only, page by page. *)
Definition same_pages_nocase (a b : Index) : Prop :=
  Forall2 (λ p q, p.1 = q.1 ∧ eqb_nocase p.2 q.2 = true) a b.

(** * Properties of the matcher *)

Section Matcher.

Ltac each_char c :=
  destruct c as [[|] [|] [|] [|] [|] [|] [|] [|]]; vm_compute; auto.

Lemma escaped_is_literal (c : ascii) :
  Re.needs_escape c = true →
  Ascii.eqb c "b" = false ∧ Char.is_alnum c = false.
Proof. each_char c. Qed.

Lemma unescaped_is_plain (c : ascii) :
  Re.needs_escape c = false →
  Ascii.eqb c Char.backslash = false ∧ Re.is_meta c = false.
Proof. each_char c. Qed.

Lemma is_word_lower (c : ascii) : Char.is_word (Char.lower c) = Char.is_word c.
Proof. each_char c. Qed.

Lemma eqb_nocase_is_word (x y : ascii) :
  Char.eqb_nocase x y = true → Char.is_word x = Char.is_word y.
Proof.
  unfold Char.eqb_nocase. intros H%Ascii.eqb_eq.
  rewrite <- (is_word_lower x), <- (is_word_lower y). by rewrite H.
Qed.

(** The escaped keyword parses back to the keyword's own characters. *)
Lemma parse_escape (keyword rest : string) (items : list Re.item) :
  Re.parse rest = Some items →
  Re.parse (Re.escape keyword +:+ rest) = Some (literals keyword ++ items).
Proof.
  intros Hrest. induction keyword as [|c k IH]; simpl; [done|].
  destruct (Re.needs_escape c) eqn:E.
  - destruct (escaped_is_literal c E) as [Hb Ha].
    unfold Char.backslash. simpl Re.parse. by rewrite Hb, Ha, IH.
  - destruct (unescaped_is_plain c E) as [Hb Hm].
    simpl Re.parse. by rewrite Hb, Hm, IH.
Qed.

Lemma parse_word_pattern (keyword : string) :
  Re.parse (word_pattern keyword) = Some (compiled keyword).
Proof.
  unfold word_pattern, compiled.
  simpl Re.parse. change ("" +:+ Re.escape keyword +:+ "\b")
    with (Re.escape keyword +:+ "\b").
  by rewrite (parse_escape keyword "\b" [Re.Boundary]).
Qed.

Lemma re_search_word_pattern (keyword text : string) :
  Re.search (word_pattern keyword) text = Some (matches keyword text).
Proof. unfold Re.search. by rewrite parse_word_pattern. Qed.

Lemma str_nil_app (s : string) : "" +:+ s = s.
Proof. reflexivity. Qed.

Lemma str_cons_app (c : ascii) (a b : string) :
  String c a +:+ b = String c (a +:+ b).
Proof. reflexivity. Qed.

Ltac push_app := rewrite ?str_nil_app, ?str_cons_app in *.

Lemma last_char_app (prev : option ascii) (a b : string) :
  last_char prev (a +:+ b) = last_char (last_char prev a) b.
Proof.
  revert prev. induction a as [|c a IH]; intros prev; push_app; [done|].
  apply IH.
Qed.

Lemma match_here_literals (keyword : string) (tail : list Re.item) :
  ∀ prev s,
    Re.match_here (literals keyword ++ tail) prev s = true ↔
    ∃ mid post, s = mid +:+ post ∧ eqb_nocase mid keyword = true
                ∧ Re.match_here tail (last_char prev mid) post = true.
Proof.
  induction keyword as [|c k IH]; intros prev s; simpl.
  - split.
    + intros H. by exists "", s.
    + intros (mid & post & -> & He & H). by destruct mid.
  - destruct s as [|ch s'].
    + split; [done|]. intros (mid & post & Hs & He & _).
      destruct mid; push_app; done.
    + rewrite andb_true_iff, IH. split.
      * intros (Hc & mid & post & -> & He & H).
        exists (String ch mid), post. simpl. by rewrite Hc, He.
      * intros (mid & post & Hs & He & H).
        destruct mid as [|x mid]; simpl in He; [done|].
        push_app. injection Hs as -> ->.
        apply andb_true_iff in He as [Hc He].
        split; [done|]. by exists mid, post.
Qed.

Lemma search_from_split (pat : list Re.item) :
  ∀ prev s,
    Re.search_from pat prev s = true ↔
    ∃ pre rest, s = pre +:+ rest
                ∧ Re.match_here pat (last_char prev pre) rest = true.
Proof.
  intros prev s. revert prev.
  induction s as [|ch s IH]; intros prev; simpl.
  - rewrite orb_false_r. split.
    + intros H. by exists "", "".
    + intros (pre & rest & Hs & H). destruct pre; push_app; [|done].
      by subst rest.
  - rewrite orb_true_iff, IH. split.
    + intros [H|(pre & rest & -> & H)].
      * by exists "", (String ch s).
      * by exists (String ch pre), rest.
    + intros (pre & rest & Hs & H). destruct pre as [|x pre]; push_app.
      * left. by subst rest.
      * right. injection Hs as -> ->. by exists pre, rest.
Qed.

(** The matcher built by [search] finds exactly the occurrences with a
    word boundary of [re] at each end. *)
Lemma matches_bounded (keyword text : string) :
  matches keyword text = true ↔ bounded_occurrence keyword text.
Proof.
  unfold matches, compiled, bounded_occurrence.
  rewrite search_from_split. split.
  - intros (pre & rest & -> & H). simpl in H.
    apply andb_true_iff in H as [Hb H].
    apply match_here_literals in H as (mid & post & -> & He & H).
    simpl in H. rewrite andb_true_r in H.
    exists pre, mid, post. by rewrite last_char_app.
  - intros (pre & mid & post & -> & He & Hb1 & Hb2).
    exists pre, (mid +:+ post). split; [done|]. simpl.
    rewrite Hb1. simpl. apply match_here_literals.
    exists mid, post. split; [done|]. split; [done|].
    simpl. rewrite andb_true_r. by rewrite <- last_char_app.
Qed.

Lemma eqb_nocase_length (a b : string) :
  eqb_nocase a b = true → String.length a = String.length b.
Proof.
  revert b. induction a as [|x a IH]; intros [|y b]; simpl; try done.
  intros [_ H]%andb_true_iff. f_equal. by apply IH.
Qed.

Lemma eqb_nocase_word_after (mid keyword post : string) :
  eqb_nocase mid keyword = true → keyword ≠ "" →
  Re.word_after (mid +:+ post) = Re.word_after keyword.
Proof.
  destruct mid as [|x mid], keyword as [|y k]; simpl; try done.
  intros [Hc _]%andb_true_iff _. by apply eqb_nocase_is_word.
Qed.

Lemma eqb_nocase_last_char (mid keyword : string) :
  eqb_nocase mid keyword = true → keyword ≠ "" →
  ∀ p q, Re.word_before (last_char p mid) = Re.word_before (last_char q keyword).
Proof.
  revert keyword. induction mid as [|x mid IH]; intros [|y k]; simpl; try done.
  intros [Hc He]%andb_true_iff _ p q.
  destruct k as [|z k].
  - destruct mid; [|done]. simpl. by apply eqb_nocase_is_word.
  - by apply IH.
Qed.

(** For a keyword with word characters at both ends, the boundaries of
    [re] say that the neighbours of the occurrence are not word
    characters. *)
Lemma bounded_whole_word (keyword text : string) :
  word_edged keyword = true →
  bounded_occurrence keyword text ↔ whole_word_occurrence keyword text.
Proof.
  unfold word_edged. intros [Hfirst Hlast]%andb_true_iff.
  assert (Hne : keyword ≠ "") by (by destruct keyword).
  unfold bounded_occurrence, whole_word_occurrence.
  split; intros (pre & mid & post & -> & He & H1 & H2);
    exists pre, mid, post; (split; [done|]); (split; [done|]);
    unfold Re.at_boundary in *;
    rewrite (eqb_nocase_word_after _ _ post He Hne), Hfirst in *;
    rewrite last_char_app,
      (eqb_nocase_last_char _ _ He Hne (last_char None pre) None), Hlast in *;
    destruct (Re.word_before (last_char None pre)), (Re.word_after post);
    done.
Qed.

Lemma search_items_eq (items : Index) (keyword : string) :
  search_items items keyword = Some (matching_urls keyword items).
Proof.
  unfold matching_urls.
  induction items as [|[url text] items IH]; simpl; [done|].
  rewrite re_search_word_pattern, IH. simpl.
  by destruct (matches keyword text).
Qed.

Lemma elem_matching_urls (url keyword : string) (items : Index) :
  In url (matching_urls keyword items) ↔
  ∃ text, In (url, text) items ∧ matches keyword text = true.
Proof.
  unfold matching_urls. rewrite in_map_iff. split.
  - intros ([u t] & <- & [Hin Hm]%filter_In). by exists t.
  - intros (t & Hin & Hm). exists (url, t). split; [done|].
    by apply filter_In.
Qed.

(** With an empty keyword the pattern is [\b\b], which is found in every
    text that has a word character. *)
Lemma search_from_empty (prev : option ascii) (s : string) :
  Re.search_from (compiled "") prev s
  = Re.word_before prev || existsb Char.is_word (list_ascii_of_string s).
Proof.
  revert prev. induction s as [|c s IH]; intros prev; simpl.
  - unfold Re.at_boundary. simpl. by destruct (Re.word_before prev).
  - rewrite IH. unfold Re.at_boundary. simpl.
    by destruct (Re.word_before prev), (Char.is_word c).
Qed.

Lemma matches_empty (text : string) : matches "" text = has_word_char text.
Proof. unfold matches. by rewrite search_from_empty. Qed.

End Matcher.

(** * Properties of the index *)

Section Dict.

Lemma dict_get_set (k v x : string) (d : Index) :
  dict_get x (dict_set k v d) = if String.eqb x k then Some v else dict_get x d.
Proof.
  induction d as [|[k' v'] d IH]; simpl.
  - by destruct (String.eqb x k).
  - destruct (String.eqb k k') eqn:E; simpl.
    + apply String.eqb_eq in E as ->. by destruct (String.eqb x k').
    + destruct (String.eqb x k') eqn:E'.
      * apply String.eqb_eq in E' as ->.
        rewrite String.eqb_sym in E. by rewrite E.
      * by rewrite IH.
Qed.

Lemma dict_keys_get (x : string) (d : Index) :
  In x (dict_keys d) ↔ is_Some (dict_get x d).
Proof.
  unfold dict_keys. induction d as [|[k v] d IH]; simpl.
  - split; [done|]. by intros [? ?].
  - destruct (String.eqb x k) eqn:E.
    + apply String.eqb_eq in E as ->. split; eauto.
    + apply String.eqb_neq in E. rewrite <- IH. split; [|tauto].
      intros [?|?]; [congruence|done].
Qed.

End Dict.

(** * Properties of the crawl engine *)

Section CrawlProofs.

Variable web : Web.

Lemma prefix_empty (x : string) : String.prefix "" x = true.
Proof. by destruct x. Qed.

(** A link in scope is crawled with a scope that is at least as narrow. *)
Lemma scope_narrows (scope target x : string) :
  String.prefix scope target = true →
  x = target ∨ String.prefix (base_or (Some scope) target) x = true →
  String.prefix scope x = true.
Proof.
  intros Ht [->|Hx]; [done|]. simpl in Hx.
  destruct (String.eqb scope "") eqn:E; [|done].
  apply String.eqb_eq in E as ->. apply prefix_empty.
Qed.

Lemma grows_refl (P : string → Prop) (st : WebCrawler) : grows web P st [] st.
Proof.
  unfold grows, indexed_after. repeat split.
  - by rewrite app_nil_r.
  - constructor.
  - set_solver.
  - set_solver.
  - set_solver.
Qed.

Lemma grows_weaken (P Q : string → Prop) st new st' :
  (∀ x, P x → Q x) → grows web P st new st' → grows web Q st new st'.
Proof.
  intros HPQ (Hr & Hn & Hv & Hp & Hi). repeat split; try done.
  - by apply Hp.
  - apply HPQ. by apply Hp.
Qed.

Lemma grows_trans (P : string → Prop) st n1 st1 n2 st2 :
  grows web P st n1 st1 → grows web P st1 n2 st2 →
  grows web P st (n1 ++ n2) st2.
Proof.
  intros (Hr1 & Hn1 & Hv1 & Hp1 & Hi1) (Hr2 & Hn2 & Hv2 & Hp2 & Hi2).
  assert (Hdisj : ∀ x, x ∈ n1 → x ∉ n2).
  { intros x H1 H2. apply Hp2 in H2 as [H2 _]. rewrite Hv1 in H2. set_solver. }
  repeat split.
  - by rewrite Hr2, Hr1, app_assoc.
  - apply NoDup_app. done.
  - rewrite Hv2, Hv1, list_to_set_app_L. set_solver.
  - apply elem_of_app in H as [H|H]; [by apply Hp1|].
    apply Hp2 in H as [H _]. rewrite Hv1 in H. set_solver.
  - apply elem_of_app in H as [H|H]; [by apply Hp1|by apply Hp2].
  - intros x. rewrite Hi2. unfold indexed_after. rewrite Hi1.
    unfold indexed_after.
    destruct (decide (x ∈ n2)) as [H2|H2].
    + assert (x ∉ n1) by (intros H1; by eapply Hdisj).
      rewrite (bool_decide_eq_true_2 _ H2), bool_decide_eq_false_2 by done.
      rewrite bool_decide_eq_true_2 by set_solver. done.
    + rewrite (bool_decide_eq_false_2 _ H2).
      destruct (decide (x ∈ n1)) as [H1|H1].
      * rewrite (bool_decide_eq_true_2 _ H1), bool_decide_eq_true_2 by set_solver.
        done.
      * rewrite (bool_decide_eq_false_2 _ H1), bool_decide_eq_false_2 by set_solver.
        done.
Qed.

Lemma grows_print (P : string → Prop) st new st' url e :
  grows web P st new st' → grows web P st new (print_error url e st').
Proof. by intros (? & ? & ? & ? & ?). Qed.

Lemma page_text_failed (url : string) :
  requests_get web url = None → page_text web url = None.
Proof. unfold page_text. by intros ->. Qed.

Lemma page_text_rejected (url content : string) :
  requests_get web url = Some content → soup web content = None →
  page_text web url = None.
Proof. unfold page_text. intros -> Hs. simpl. by rewrite Hs. Qed.

Lemma page_text_parsed (url content : string) (page : Soup) :
  requests_get web url = Some content → soup web content = Some page →
  page_text web url = Some (soup_text page).
Proof. unfold page_text. intros -> Hs. simpl. by rewrite Hs. Qed.

Lemma get_text_parsed (content : string) (page : Soup) :
  soup web content = Some page → get_text web content = soup_text page.
Proof. unfold get_text. by intros ->. Qed.

(** A page that shows a link has been parsed, and its anchors listed. *)
Lemma find_all_a_parsed (content : string) (link : option string)
    (links : list (option string)) :
  link ∈ links → find_all_a web content = links →
  ∃ page, soup web content = Some page ∧ soup_anchors page = Some links.
Proof.
  unfold find_all_a. intros Hin.
  destruct (soup web content) as [page|]; simpl.
  - destruct (soup_anchors page) as [l|] eqn:Ha; simpl.
    + intros ->. by exists page.
    + intros <-. by apply elem_of_nil in Hin.
  - intros <-. by apply elem_of_nil in Hin.
Qed.

(** The [try] block on a fetched page that shows a link: the request,
    the index entry, then the loop. *)
Lemma try_body_parsed self_crawl url base_url st content link links :
  requests_get web url = Some content →
  link ∈ links →
  find_all_a web content = links →
  try_body web self_crawl url base_url st
  = crawl_links web self_crawl (base_or base_url url) links
      (set_index url (get_text web content) (log_request url st)).
Proof.
  intros Hf Hin Hlinks.
  destruct (find_all_a_parsed _ _ _ Hin Hlinks) as (page & Hs & Ha).
  unfold try_body. by rewrite Hf, Hs, Ha, (get_text_parsed _ _ Hs).
Qed.

Lemma grows_request_failed (P : string → Prop) st url :
  url ∉ visited st → page_text web url = None → P url →
  grows web P st [url] (log_request url (add_visited url st)).
Proof.
  intros Hv Hf HP. unfold grows, indexed_after. simpl. repeat split.
  - apply NoDup_singleton.
  - set_solver.
  - set_solver.
  - set_solver.
  - intros x. case_bool_decide as Hx; [|done].
    apply list_elem_of_singleton in Hx as ->. by rewrite Hf.
Qed.

Lemma grows_request_indexed (P : string → Prop) st url text :
  url ∉ visited st → page_text web url = Some text → P url →
  grows web P st [url]
    (set_index url text (log_request url (add_visited url st))).
Proof.
  intros Hv Hf HP. unfold grows, indexed_after. simpl. repeat split.
  - apply NoDup_singleton.
  - set_solver.
  - set_solver.
  - set_solver.
  - intros x. rewrite dict_get_set. case_bool_decide as Hx.
    + apply list_elem_of_singleton in Hx as ->. by rewrite String.eqb_refl, Hf.
    + destruct (String.eqb x url) eqn:E; [|done].
      apply String.eqb_eq in E as ->. set_solver.
Qed.

Lemma grows_visited_mono (P : string → Prop) st new st' :
  grows web P st new st' → visited st ⊆ visited st'.
Proof. intros (_ & _ & -> & _). set_solver. Qed.

Lemma crawl_links_grows self_crawl scope :
  crawl_ok web self_crawl →
  ∀ links st st' out,
    crawl_links web self_crawl scope links st = Some (st', out) →
    ∃ new, grows web (λ x, String.prefix scope x = true) st new st'.
Proof.
  intros Hok links. induction links as [|[href|] rest IH]; intros st st' out; simpl.
  - intros [= <- <-]. exists []. apply grows_refl.
  - destruct (String.eqb href ""); [apply IH|].
    destruct (urljoin web scope href) as [target|].
    + destruct (String.prefix scope target) eqn:Hp; [|apply IH].
      destruct (self_crawl target (Some scope) st) as [st1|] eqn:Hc; [|done].
      simpl. intros Hrest.
      apply Hok in Hc as (_ & n1 & Hg1).
      apply IH in Hrest as (n2 & Hg2).
      exists (n1 ++ n2). eapply grows_trans; [|done].
      eapply grows_weaken; [|done]. intros x. by apply scope_narrows.
    + intros [= <- <-]. exists []. apply grows_refl.
  - apply IH.
Qed.

Lemma crawl_grows (fuel : nat) : crawl_ok web (crawl web fuel).
Proof.
  induction fuel as [|fuel IH]; intros url base_url st st'; simpl; [done|].
  case_bool_decide as Hv.
  - intros [= <-]. split; [done|]. exists []. apply grows_refl.
  - assert (Hnone : page_text web url = None →
      url ∈ visited (log_request url (add_visited url st))
      ∧ ∃ new, ∀ e, grows web (in_scope url base_url) st new
                      (print_error url e (log_request url (add_visited url st)))).
    { intros Hnone. split; [simpl; set_solver|]. exists [url]. intros e.
      apply grows_print. apply (grows_request_failed _ _ _ Hv Hnone). by left. }
    unfold try_body.
    destruct (requests_get web url) as [content|] eqn:Hf; simpl.
    + destruct (soup web content) as [page|] eqn:Hs; simpl.
      * pose proof (page_text_parsed _ _ _ Hf Hs) as Htext.
        assert (Hstart : grows web (in_scope url base_url) st [url]
                  (set_index url (soup_text page)
                     (log_request url (add_visited url st))))
          by (apply grows_request_indexed; [done|done|by left]).
        destruct (soup_anchors page) as [links|]; simpl.
        -- destruct (crawl_links _ _ _ _ _) as [[st2 out]|] eqn:Hl; [|done].
           simpl. intros [= <-].
           apply (crawl_links_grows _ _ IH) in Hl as (n & Hg).
           assert (Hg' : grows web (in_scope url base_url) st ([url] ++ n) st2).
           { eapply grows_trans; [done|].
             eapply grows_weaken; [|done]. intros x Hx. by right. }
           assert (url ∈ visited st2).
           { destruct Hg' as (_ & _ & -> & _). set_solver. }
           unfold handler. simpl. destruct out; simpl; (split; [done|]);
             exists ([url] ++ n); [done|by apply grows_print].
        -- intros [= <-]. unfold handler. simpl. split; [set_solver|].
           exists [url]. by apply grows_print.
      * intros [= <-]. unfold handler. simpl.
        destruct (Hnone (page_text_rejected _ _ Hf Hs)) as (Hin & new & Hg).
        split; [done|]. by exists new.
    + intros [= <-]. unfold handler. simpl.
      destruct (Hnone (page_text_failed _ Hf)) as (Hin & new & Hg).
      split; [done|]. by exists new.
Qed.

Lemma crawl_visited_mono fuel url base_url st st' :
  crawl web fuel url base_url st = Some st' → visited st ⊆ visited st'.
Proof.
  intros (_ & n & Hg)%crawl_grows. by eapply grows_visited_mono.
Qed.

Lemma crawl_links_visited_mono fuel scope links st st' out :
  crawl_links web (crawl web fuel) scope links st = Some (st', out) →
  visited st ⊆ visited st'.
Proof.
  intros (n & Hg)%(crawl_links_grows _ _ (crawl_grows fuel)).
  by eapply grows_visited_mono.
Qed.

Lemma crawl_visits fuel url base_url st st' :
  crawl web fuel url base_url st = Some st' → url ∈ visited st'.
Proof. by intros (? & _)%crawl_grows. Qed.

(** The loop over a concatenation: the second part runs only if the
    first part ended normally. *)
Lemma crawl_links_app self_crawl scope pre rest st :
  crawl_links web self_crawl scope (pre ++ rest) st
  = match crawl_links web self_crawl scope pre st with
    | Some (st', Normal) => crawl_links web self_crawl scope rest st'
    | other => other
    end.
Proof.
  revert st. induction pre as [|[href|] pre IH]; intros st; simpl; [done| |done].
  destruct (String.eqb href ""); [done|].
  destruct (urljoin web scope href) as [target|]; [|done].
  destruct (String.prefix scope target); [|done].
  destruct (self_crawl target (Some scope) st) as [st1|]; simpl; [apply IH|done].
Qed.

(** Only [urljoin] raises inside the loop. *)
Lemma crawl_links_raises self_crawl scope links st st' e :
  crawl_links web self_crawl scope links st = Some (st', Raised e) →
  e = ValueError.
Proof.
  revert st. induction links as [|[href|] rest IH]; intros st; simpl;
    [done| |apply IH].
  destruct (String.eqb href ""); [apply IH|].
  destruct (urljoin web scope href) as [target|]; [|by intros [= _ <-]].
  destruct (String.prefix scope target); [|apply IH].
  destruct (self_crawl target (Some scope) st); [|done]. apply IH.
Qed.

(** A link that the loop reaches has been crawled when the loop ends. *)
Lemma crawl_links_attempts fuel scope pre href post target :
  Forall (resolves web scope) pre →
  href ≠ "" →
  urljoin web scope href = Some target →
  String.prefix scope target = true →
  ∀ st st' out,
    crawl_links web (crawl web fuel) scope (pre ++ Some href :: post) st
      = Some (st', out) →
    target ∈ visited st'.
Proof.
  intros Hpre Hne Hj Hp. induction Hpre as [|link pre Hlink Hpre IH];
    intros st st' out; simpl.
  - apply String.eqb_neq in Hne as ->. rewrite Hj, Hp.
    destruct (crawl web fuel target (Some scope) st) as [st1|] eqn:Hc; [|done].
    simpl. intros Hrest%crawl_links_visited_mono.
    apply crawl_visits in Hc. set_solver.
  - destruct link as [h|]; [|apply IH].
    destruct (String.eqb h "") eqn:E; [apply IH|].
    apply String.eqb_neq in E.
    destruct (Hlink h eq_refl E) as [t ->].
    destruct (String.prefix scope t); [|apply IH].
    destruct (crawl web fuel t (Some scope) st) as [st1|]; [|done]. apply IH.
Qed.

(** A link of the crawled page that the loop reaches has been crawled
    when the call returns. *)
Lemma crawl_reaches_links fuel url base_url st st' content l1 h l2 target :
  crawl web fuel url base_url st = Some st' →
  url ∉ visited st →
  requests_get web url = Some content →
  find_all_a web content = l1 ++ Some h :: l2 →
  Forall (resolves web (base_or base_url url)) l1 →
  h ≠ "" →
  urljoin web (base_or base_url url) h = Some target →
  String.prefix (base_or base_url url) target = true →
  target ∈ visited st'.
Proof.
  intros Hc Hv Hf Hl Hres Hh Hj Hp.
  destruct fuel as [|fuel]; [done|]. simpl in Hc.
  rewrite bool_decide_eq_false_2 in Hc by done.
  rewrite (try_body_parsed _ _ _ _ _ (Some h) (l1 ++ Some h :: l2) Hf) in Hc;
    [|set_solver|done].
  destruct (crawl_links _ _ _ _ _) as [[st1 out]|] eqn:Hloop; [|done].
  injection Hc as <-.
  apply (crawl_links_attempts _ _ _ _ _ _ Hres Hh Hj Hp) in Hloop.
  unfold handler. simpl. by destruct out.
Qed.

(** More fuel does not change the result of a call that returns. *)
Lemma crawl_links_fuel f g scope links :
  (∀ url base_url st st', f url base_url st = Some st' → g url base_url st = Some st') →
  ∀ st r, crawl_links web f scope links st = Some r →
          crawl_links web g scope links st = Some r.
Proof.
  intros Hfg. induction links as [|[href|] rest IH]; intros st r; simpl; [done| |apply IH].
  destruct (String.eqb href ""); [apply IH|].
  destruct (urljoin web scope href) as [target|]; [|done].
  destruct (String.prefix scope target); [|apply IH].
  destruct (f target (Some scope) st) as [st1|] eqn:Hc; [|done].
  rewrite (Hfg _ _ _ _ Hc). apply IH.
Qed.

Lemma crawl_fuel_mono fuel fuel' url base_url st st' :
  (fuel ≤ fuel')%nat →
  crawl web fuel url base_url st = Some st' →
  crawl web fuel' url base_url st = Some st'.
Proof.
  revert fuel' url base_url st st'.
  induction fuel as [|fuel IH]; intros [|fuel'] url base_url st st' Hle;
    simpl; try done; [lia|].
  case_bool_decide; [done|]. unfold try_body.
  destruct (requests_get web url); [|done].
  destruct (soup web _) as [page|]; [|done].
  destruct (soup_anchors page); [|done].
  destruct (crawl_links _ (crawl web fuel) _ _ _) as [r|] eqn:Hl; [|done].
  erewrite crawl_links_fuel; [done| |done].
  intros ????. apply IH. lia.
Qed.

(** Termination on a finite reachable part of the web. *)
Lemma crawl_returns (U : gset string) url0 base0 :
  (∀ u b, call_reach web url0 base0 u b → u ∈ U) →
  ∀ fuel url base_url st,
    call_reach web url0 base0 url base_url →
    (size (U ∖ visited st) < fuel)%nat →
    is_Some (crawl web fuel url base_url st).
Proof.
  intros HU. induction fuel as [|fuel IH]; intros url base_url st Hreach Hsize;
    [lia|]. simpl.
  case_bool_decide as Hv; [done|]. unfold try_body.
  destruct (requests_get web url) as [content|] eqn:Hf; [|done].
  destruct (soup web content) as [page|] eqn:Hs; [|done].
  destruct (soup_anchors page) as [page_links|] eqn:Ha; [|done].
  assert (Hall : find_all_a web content = page_links)
    by (unfold find_all_a; by rewrite Hs; simpl; rewrite Ha).
  set (scope := base_or base_url url).
  set (st0 := set_index _ _ _).
  assert (Hloop : ∀ links st1,
    (∀ l, l ∈ links → l ∈ find_all_a web content) →
    visited st0 ⊆ visited st1 →
    is_Some (crawl_links web (crawl web fuel) scope links st1)).
  { induction links as [|[href|] rest IHl]; intros st1 Hin Hsub; simpl; [done| |].
    - assert (Hrest : ∀ l, l ∈ rest → l ∈ find_all_a web content)
        by (intros l Hl; apply Hin; by right).
      destruct (String.eqb href "") eqn:E; [by apply IHl|].
      apply String.eqb_neq in E.
      destruct (urljoin web scope href) as [target|] eqn:Hj; [|done].
      destruct (String.prefix scope target) eqn:Hp; [|by apply IHl].
      destruct (IH target (Some scope) st1) as [st2 Hc].
      + eapply reach_link; [done|done| |done|done|done]. apply Hin. by left.
      + assert (U ∖ visited st1 ⊂ U ∖ visited st).
        { assert (url ∈ U) by by eapply HU.
          assert (url ∈ visited st1) by (apply Hsub; simpl; set_solver).
          assert (visited st ⊆ visited st1)
            by (etrans; [|apply Hsub]; simpl; set_solver).
          set_solver. }
        assert (size (U ∖ visited st1) < size (U ∖ visited st))%nat
          by by apply subset_size.
        lia.
      + rewrite Hc. simpl. apply IHl; [done|].
        apply crawl_visited_mono in Hc. set_solver.
    - apply IHl; [|done]. intros l Hl. apply Hin. by right. }
  destruct (Hloop page_links st0) as [r ->]; [by rewrite Hall|done|done].
Qed.

Lemma closed_calls_reach (calls : list (string * option string)) url0 base0 :
  closed_calls web calls = true →
  (url0, base0) ∈ calls →
  ∀ url base_url, call_reach web url0 base0 url base_url →
                  (url, base_url) ∈ calls.
Proof.
  intros Hclosed Hstart url base_url Hreach.
  induction Hreach as [|url base_url content href target _ IH Hf Hin Hne Hj Hp];
    [done|].
  unfold closed_calls in Hclosed. rewrite forallb_forall in Hclosed.
  apply list_elem_of_In, Hclosed in IH. rewrite forallb_forall in IH.
  assert (Hnext : (target, Some (base_or base_url url))
                  ∈ successors web (url, base_url)).
  { unfold successors. simpl. rewrite Hf. apply list_elem_of_omap.
    exists (Some href). split; [done|]. unfold link_call. simpl.
    apply String.eqb_neq in Hne as ->. rewrite Hj. simpl. by rewrite Hp. }
  apply list_elem_of_In, IH in Hnext. by apply bool_decide_eq_true in Hnext.
Qed.

Lemma closed_calls_urls (calls : list (string * option string)) url0 base0 :
  closed_calls web calls = true →
  (url0, base0) ∈ calls →
  ∀ url base_url, call_reach web url0 base0 url base_url →
                  url ∈ (list_to_set calls.*1 : gset string).
Proof.
  intros Hclosed Hstart url base_url Hreach.
  apply elem_of_list_to_set, list_elem_of_fmap.
  exists (url, base_url). split; [done|]. by eapply closed_calls_reach.
Qed.

End CrawlProofs.

(** * The claims *)

Ltac evaluate := vm_compute; reflexivity.
Ltac decide_by_evaluation := refine (bool_decide_eq_true_1 _ _); evaluate.




(** C2: one invocation of [crawl] calls [requests.get] at most once per
    URL: the URLs it requests are pairwise distinct, and none of them was
    visited before.  On a page with two identical links the target is
    requested once; on the cycle A → B → A, [crawl(A)] returns with A and B
    visited and requested once each. *)
Theorem fetch_at_most_once :
  (∀ (web : Web) fuel url base_url st st',
     crawl web fuel url base_url st = Some st' →
     ∃ new, requests st' = requests st ++ new
            ∧ NoDup new
            ∧ (∀ x, x ∈ new → x ∉ visited st)
            ∧ visited st' = visited st ∪ list_to_set new)
  ∧ (∃ st',
       crawl Fixture.web 3 "https://dup.test" None new_crawler = Some st'
       ∧ find_all_a Fixture.web <$> requests_get Fixture.web "https://dup.test"
         = Some [Some "/about"; Some "/about"]
       ∧ requests st' = ["https://dup.test"; "https://dup.test/about"]
       ∧ visited st' = {[ "https://dup.test"; "https://dup.test/about" ]})
  ∧ (∃ st',
       crawl Fixture.web 3 "https://cycle.test" None new_crawler = Some st'
       ∧ requests st' = ["https://cycle.test"; "https://cycle.test/b"]
       ∧ visited st' = {[ "https://cycle.test"; "https://cycle.test/b" ]}).
Proof.
  split; [|split].
  - intros web fuel url base_url st st' (_ & new & Hr & Hn & Hv & Hp & _)%crawl_grows.
    exists new. repeat split; try done. intros x Hx. by apply Hp.
  - eexists. split; [evaluate|]. split; [evaluate|]. split; [evaluate|].
    apply set_eq. intros x. simpl. set_solver.
  - eexists. split; [evaluate|]. split; [evaluate|].
    apply set_eq. intros x. simpl. set_solver.
Qed.

Lemma fetch_at_most_once_witness :
  ∃ st',
    crawl Fixture.web 3 "https://cycle.test" None new_crawler = Some st'
    ∧ ∃ new, requests st' = requests new_crawler ++ new
             ∧ NoDup new
             ∧ (∀ x, x ∈ new → x ∉ visited new_crawler)
             ∧ visited st' = visited new_crawler ∪ list_to_set new.
Proof.
  eexists. split; [evaluate|].
  apply (proj1 fetch_at_most_once Fixture.web 3 "https://cycle.test" None
           new_crawler).
  evaluate.
Defined.

(** What [search] computes, for every keyword: the URLs, in index order,
    whose text holds the keyword, compared without case and with its
    characters taken literally, between two word boundaries of [re]. *)
Lemma search_bounded_occurrence (st : WebCrawler) (keyword : string) :
  ∃ results,
    search st keyword = Some results
    ∧ ∀ url, In url results ↔
             ∃ text, In (url, text) (index st) ∧ bounded_occurrence keyword text.
Proof.
  unfold search. rewrite search_items_eq. eexists. split; [done|].
  intros url. rewrite elem_matching_urls.
  split; intros (text & Hin & Hm); exists text; (split; [done|]);
    by apply matches_bounded.
Qed.

(** X9: on ASCII texts, for an ASCII keyword that begins and ends with a
    word character, [search] returns a URL exactly when its text holds
    the keyword as a whole word, compared without case: an occurrence
    with no word character next to it on either side. *)
Lemma search_whole_word (st : WebCrawler) (keyword : string) :
  is_ascii keyword = true →
  ascii_texts (index st) →
  word_edged keyword = true →
  ∃ results,
    search st keyword = Some results
    ∧ ∀ url, In url results ↔
             ∃ text, In (url, text) (index st) ∧ whole_word_occurrence keyword text.
Proof.
  intros _ _ Hedge.
  destruct (search_bounded_occurrence st keyword) as (r & Hr & H).
  exists r. split; [done|]. intros url. rewrite H.
  split; intros (text & Hin & Hm); exists text; (split; [done|]);
    by apply (bounded_whole_word _ _ Hedge).
Qed.

(** The examples of the specification. *)
Lemma search_examples :
  search (set_index "page1" "category theory" new_crawler) "cat" = Some []
  ∧ search (set_index "page1" "category theory" new_crawler) "category"
    = Some ["page1"]
  ∧ search (set_index "page1" "KEYword in caps" new_crawler) "keyword"
    = Some ["page1"]
  ∧ search (set_index "page2" "No key word here"
              (set_index "page1" "This has the keyword" new_crawler)) "keyword"
    = Some ["page1"]
  ∧ search (set_index "page1" "a.b" (set_index "page2" "axb" new_crawler)) "a.b"
    = Some ["page1"].
Proof. repeat split; evaluate. Qed.

(** C3 at a keyword that ends with a character that is not a word
    character.  [\b] after the final [+] asks for a word character next to
    it: the whole-word occurrence of [c++] in [c++ rocks] is not found,
    and the occurrence inside [c++x], which is no whole word, is. *)
Theorem search_symbol_edged_keyword :
  search (set_index "page2" "c++x" (set_index "page1" "c++ rocks" new_crawler))
    "c++" = Some ["page2"]
  ∧ whole_word_occurrence "c++" "c++ rocks"
  ∧ ¬ whole_word_occurrence "c++" "c++x".
Proof.
  split; [evaluate|]. split.
  - exists "", "c++", " rocks". repeat split; evaluate.
  - intros (pre & mid & post & Ht & He & Hb & Ha).
    pose proof (eqb_nocase_length _ _ He) as Hlen.
    destruct mid as [|m1 [|m2 [|m3 [|m4 mid]]]]; try discriminate Hlen.
    destruct pre as [|p1 [|p2 [|p3 [|p4 pre]]]];
      vm_compute in Ht; simplify_eq; try discriminate.
    by destruct pre.
Qed.




(** C5, as stated, fails: with an empty keyword the pattern is [\b\b], and
    a page with ordinary text is returned. *)
Lemma empty_keyword_counterexample :
  search (set_index "page1" "hello world" new_crawler) "" = Some ["page1"].
Proof. evaluate. Qed.

(** C5, amended: on an index whose values are ASCII texts, [search] with
    an empty keyword never fails; it returns, in index order, the URLs
    whose text has at least one word character, and no other URL. *)
Theorem empty_keyword_matches_word_text (st : WebCrawler) :
  ascii_texts (index st) →
  search st "" = Some (map fst (List.filter (λ p, has_word_char p.2) (index st))).
Proof.
  intros _. unfold search. rewrite search_items_eq. unfold matching_urls.
  do 2 f_equal. apply filter_ext. intros [url text]. apply matches_empty.
Qed.

Lemma empty_keyword_matches_word_text_witness :
  search (set_index "page2" "... --- ..."
            (set_index "page1" "hello world" new_crawler)) ""
  = Some (map fst
            (List.filter (λ p, has_word_char p.2)
               (index (set_index "page2" "... --- ..."
                         (set_index "page1" "hello world" new_crawler))))).
Proof.
  apply empty_keyword_matches_word_text.
  repeat (constructor; [evaluate|]). constructor.
Defined.

(** C9: on a freshly constructed crawler [search] returns the empty list,
    for every keyword, and does not raise; on no index at all does it
    raise, since the escaped keyword always compiles. *)
Theorem search_fresh_index (keyword : string) :
  search new_crawler keyword = Some []
  ∧ ∀ st, is_Some (search st keyword).
Proof.
  split; [reflexivity|].
  intros st. unfold search. rewrite search_items_eq. by eexists.
Qed.

(** C7: on a web whose reachable calls stay within a finite set [U] of
    URLs, [crawl] returns, at a recursion depth of at most [size U + 1].
    Each URL is marked visited before it is requested and before its links
    are followed: every URL requested during the call is visited, was not
    visited before the call, and is requested once. *)
Theorem crawl_terminates (web : Web) (U : gset string) (url : string)
    (base_url : option string) (st : WebCrawler) (fuel : nat) :
  (∀ u b, call_reach web url base_url u b → u ∈ U) →
  (size U < fuel)%nat →
  ∃ st' new,
    crawl web fuel url base_url st = Some st'
    ∧ requests st' = requests st ++ new
    ∧ NoDup new
    ∧ ∀ x, x ∈ new → ¬ (x ∈ visited st) ∧ x ∈ visited st'.
Proof.
  intros HU Hfuel.
  destruct (crawl_returns web U url base_url HU fuel url base_url st) as [st' Hc].
  - constructor.
  - assert (size (U ∖ visited st) ≤ size U)%nat
      by (apply subseteq_size; set_solver).
    lia.
  - destruct (crawl_grows web _ _ _ _ _ Hc) as (_ & new & Hr & Hn & Hv & Hp & _).
    exists st', new. repeat split; try done.
    + by apply Hp.
    + rewrite Hv. set_solver.
Qed.

Lemma crawl_terminates_witness :
  ∃ st' new,
    crawl Fixture.web 3 "https://cycle.test" None new_crawler = Some st'
    ∧ requests st' = requests new_crawler ++ new
    ∧ NoDup new
    ∧ ∀ x, x ∈ new → ¬ (x ∈ visited new_crawler) ∧ x ∈ visited st'.
Proof.
  apply (crawl_terminates Fixture.web
           (list_to_set
              [("https://cycle.test", None);
               ("https://cycle.test/b", Some "https://cycle.test");
               ("https://cycle.test", Some "https://cycle.test")].*1)).
  - apply closed_calls_urls; [evaluate|]. by left.
  - vm_compute. lia.
Defined.

(** C8, as stated, fails: the fetch of [https://broken.test] succeeds, the
    parser rejects its content, and the handler prints the error: the URL
    has no index entry. *)
Lemma unparsed_page_counterexample :
  ∃ st' content,
    crawl Fixture.web 2 "https://broken.test" None new_crawler = Some st'
    ∧ requests_get Fixture.web "https://broken.test" = Some content
    ∧ soup Fixture.web content = None
    ∧ requests st' = ["https://broken.test"]
    ∧ ¬ In "https://broken.test" (dict_keys (index st'))
    ∧ stdout st' = [("https://broken.test", ParserError)].
Proof.
  eexists. eexists. split; [evaluate|]. do 3 (split; [evaluate|]).
  split; [|evaluate]. vm_compute. tauto.
Qed.

(** C8, amended: every URL whose fetch succeeds during a call of [crawl],
    and whose content the parser accepts ([BeautifulSoup(...)] and
    [get_text] return), has an index entry when the call returns, holding
    the text of the page, whatever the content is and whatever the text
    is (the empty text included).  A fetched page on which the parser
    raises gets no entry from the call. *)
Theorem fetched_page_is_indexed (web : Web) (U : gset string) (url : string)
    (base_url : option string) (st : WebCrawler) (fuel : nat) :
  (∀ u b, call_reach web url base_url u b → u ∈ U) →
  (size U < fuel)%nat →
  ∃ st' new,
    crawl web fuel url base_url st = Some st'
    ∧ requests st' = requests st ++ new
    ∧ (url ∉ visited st → url ∈ new)
    ∧ (∀ x content page,
         x ∈ new → requests_get web x = Some content →
         soup web content = Some page →
         dict_get x (index st') = Some (soup_text page)
         ∧ In x (dict_keys (index st')))
    ∧ (∀ x content,
         x ∈ new → requests_get web x = Some content →
         soup web content = None →
         dict_get x (index st') = dict_get x (index st)).
Proof.
  intros HU Hfuel.
  destruct (crawl_returns web U url base_url HU fuel url base_url st) as [st' Hc].
  - constructor.
  - assert (size (U ∖ visited st) ≤ size U)%nat
      by (apply subseteq_size; set_solver).
    lia.
  - destruct (crawl_grows web _ _ _ _ _ Hc) as (Hu & new & Hr & Hn & Hv & Hp & Hi).
    exists st', new. split; [done|]. split; [done|]. split; [|split].
    + intros Hnv. rewrite Hv in Hu. set_solver.
    + intros x content page Hx Hf Hs.
      assert (Hget : dict_get x (index st') = Some (soup_text page)).
      { rewrite Hi. unfold indexed_after.
        by rewrite bool_decide_eq_true_2, (page_text_parsed _ _ _ _ Hf Hs) by done. }
      split; [done|]. apply dict_keys_get. by rewrite Hget.
    + intros x content Hx Hf Hs. rewrite Hi. unfold indexed_after.
      by rewrite bool_decide_eq_true_2, (page_text_rejected _ _ _ Hf Hs) by done.
Qed.

Lemma fetched_page_is_indexed_witness :
  ∃ st' new,
    crawl Fixture.web 2 "https://api.test/data" None new_crawler = Some st'
    ∧ requests st' = requests new_crawler ++ new
    ∧ ("https://api.test/data" ∉ visited new_crawler →
       "https://api.test/data" ∈ new)
    ∧ (∀ x content page,
         x ∈ new → requests_get Fixture.web x = Some content →
         soup Fixture.web content = Some page →
         dict_get x (index st') = Some (soup_text page)
         ∧ In x (dict_keys (index st')))
    ∧ (∀ x content,
         x ∈ new → requests_get Fixture.web x = Some content →
         soup Fixture.web content = None →
         dict_get x (index st') = dict_get x (index new_crawler)).
Proof.
  apply (fetched_page_is_indexed Fixture.web
           (list_to_set
              ([("https://api.test/data", None)]
                 : list (string * option string)).*1)).
  - apply closed_calls_urls; [evaluate|]. by left.
  - vm_compute. lia.
Defined.



(** C10: a call of [crawl] keeps the keys of the index within [visited].
    A URL whose fetch failed during the call is visited and has no index
    entry, and the entry of a URL whose fetch fails is never changed. *)
Theorem index_within_visited (web : Web) (fuel : nat) (url : string)
    (base_url : option string) (st st' : WebCrawler) :
  (∀ k, In k (dict_keys (index st)) → k ∈ visited st) →
  crawl web fuel url base_url st = Some st' →
  (∀ k, In k (dict_keys (index st')) → k ∈ visited st')
  ∧ (∀ x, requests_get web x = None →
          dict_get x (index st') = dict_get x (index st))
  ∧ ∃ new,
      requests st' = requests st ++ new
      ∧ ∀ x, x ∈ new → requests_get web x = None →
             x ∈ visited st' ∧ ¬ In x (dict_keys (index st')).
Proof.
  intros Hinv (_ & new & Hr & _ & Hv & Hp & Hi)%crawl_grows.
  assert (Hfail : ∀ x, requests_get web x = None →
                       dict_get x (index st') = dict_get x (index st)).
  { intros x Hf. rewrite Hi. unfold indexed_after.
    rewrite (page_text_failed _ _ Hf). by case_bool_decide. }
  split; [|split; [done|]].
  - intros k [v Hk]%dict_keys_get. rewrite Hi in Hk. unfold indexed_after in Hk.
    rewrite Hv. case_bool_decide as Hn; [set_solver|].
    apply elem_of_union_l, Hinv, dict_keys_get. by rewrite Hk.
  - exists new. split; [done|]. intros x Hx Hf. split.
    + rewrite Hv. set_solver.
    + intros Hin%dict_keys_get. rewrite (Hfail x Hf) in Hin.
      apply dict_keys_get, Hinv in Hin. by apply Hp in Hx as [Hx _].
Qed.

Lemma index_within_visited_witness :
  ∃ st',
    crawl Fixture.web 4 "https://fail.test" None new_crawler = Some st'
    ∧ (∀ k, In k (dict_keys (index st')) → k ∈ visited st')
    ∧ (∀ x, requests_get Fixture.web x = None →
            dict_get x (index st') = dict_get x (index new_crawler))
    ∧ ∃ new,
        requests st' = requests new_crawler ++ new
        ∧ ∀ x, x ∈ new → requests_get Fixture.web x = None →
               x ∈ visited st' ∧ ¬ In x (dict_keys (index st')).
Proof.
  eexists. split; [evaluate|].
  apply (index_within_visited Fixture.web 4 "https://fail.test" None new_crawler).
  - intros k [].
  - evaluate.
Defined.


(** * Further properties of the crawl engine *)

Section Trace.

Variable web : Web.

Lemma dict_set_fresh (k v : string) (d : Index) :
  ¬ In k (dict_keys d) → dict_set k v d = d ++ [(k, v)].
Proof.
  unfold dict_keys. induction d as [|[k' v'] d IH]; simpl; [done|].
  intros Hk. destruct (String.eqb k k') eqn:E.
  - apply String.eqb_eq in E as ->. tauto.
  - rewrite IH; [done|tauto].
Qed.

Lemma grows_keys_visited (P : string → Prop) st new st' :
  keys_visited st → grows web P st new st' → keys_visited st'.
Proof.
  intros Hinv (_ & _ & Hv & _ & Hi) k [v Hk]%dict_keys_get.
  rewrite Hi in Hk. unfold indexed_after in Hk. rewrite Hv.
  case_bool_decide as Hn; [set_solver|].
  apply elem_of_union_l, Hinv, dict_keys_get. by rewrite Hk.
Qed.

Lemma indexed_pages_app (a b : list string) :
  indexed_pages web (a ++ b) = indexed_pages web a ++ indexed_pages web b.
Proof. unfold indexed_pages. apply omap_app. Qed.

Lemma traced_refl (P : string → Prop) (st : WebCrawler) :
  traced web P st [] [] st.
Proof.
  split; [apply grows_refl|]. repeat split.
  - by rewrite app_nil_r.
  - intros u Hu. by apply elem_of_nil in Hu.
  - intros u Hu. by apply elem_of_nil in Hu.
  - intros u content Hu. by apply elem_of_nil in Hu.
  - constructor.
  - intros _. by rewrite app_nil_r.
Qed.

Lemma traced_weaken (P Q : string → Prop) st new reports st' :
  (∀ x, P x → Q x) → traced web P st new reports st' →
  traced web Q st new reports st'.
Proof.
  intros HPQ (Hg & Hrest). split; [|done]. by eapply grows_weaken.
Qed.

Lemma traced_trans (P : string → Prop) st n1 r1 st1 n2 r2 st2 :
  traced web P st n1 r1 st1 → traced web P st1 n2 r2 st2 →
  traced web P st (n1 ++ n2) (r1 ++ r2) st2.
Proof.
  intros (Hg1 & Ho1 & Ha1 & Hf1 & He1 & Hd1 & Hi1)
         (Hg2 & Ho2 & Ha2 & Hf2 & He2 & Hd2 & Hi2).
  split; [by eapply grows_trans|]. repeat split.
  - by rewrite Ho2, Ho1, app_assoc.
  - intros u. rewrite fmap_app, !elem_of_app. intros [Hu|Hu]; [left|right]; eauto.
  - intros u [Hu|Hu]%elem_of_app Hfail; apply elem_of_app;
      [left; by apply Hf1|right; by apply Hf2].
  - intros u content [Hu|Hu]%elem_of_app Hf Hfail; apply elem_of_app;
      [left; by eapply He1|right; by eapply He2].
  - rewrite fmap_app. apply NoDup_app. split; [done|]. split; [|done].
    intros u Hu1%Ha1 Hu2%Ha2.
    destruct Hg1 as (_ & _ & Hv1 & _), Hg2 as (_ & _ & _ & Hp2 & _).
    apply Hp2 in Hu2 as [Hu2 _]. rewrite Hv1 in Hu2. set_solver.
  - intros Hinv. rewrite Hi2, Hi1, indexed_pages_app, app_assoc; [done|done|].
    by eapply grows_keys_visited.
Qed.

(** The step from a call on an unvisited URL to the start of its loop. *)
Lemma traced_indexed (P : string → Prop) st url content page :
  url ∉ visited st →
  requests_get web url = Some content → soup web content = Some page →
  soup_anchors page ≠ None →
  P url →
  traced web P st [url] []
    (set_index url (soup_text page) (log_request url (add_visited url st))).
Proof.
  intros Hv Hf Hs Ha HP.
  pose proof (page_text_parsed web _ _ _ Hf Hs) as Htext.
  split; [by apply grows_request_indexed|]. repeat split.
  - simpl. by rewrite app_nil_r.
  - intros u Hu. by apply elem_of_nil in Hu.
  - intros u ->%list_elem_of_singleton Hnone. congruence.
  - intros u c ->%list_elem_of_singleton Hc. unfold parse_fails.
    assert (c = content) as -> by congruence. by rewrite Hs.
  - constructor.
  - intros Hinv. simpl. unfold indexed_pages. simpl. rewrite Htext. simpl.
    apply dict_set_fresh. intros Hk. by apply Hinv in Hk.
Qed.

(** A call that ends before its loop: the fetch failed, or the parser
    raised before the index entry was made. *)
Lemma traced_failed (P : string → Prop) st url e :
  url ∉ visited st →
  page_text web url = None →
  match requests_get web url with
  | None => e = RequestException
  | Some _ => e = ParserError
  end →
  P url →
  traced web P st [url] [(url, e)]
    (print_error url e (log_request url (add_visited url st))).
Proof.
  intros Hv Htext He HP. split.
  { apply grows_print. by apply grows_request_failed. }
  repeat split.
  - intros u ->%list_elem_of_singleton. by left.
  - intros u ->%list_elem_of_singleton Hnone. rewrite Hnone in He. subst e.
    by left.
  - intros u c ->%list_elem_of_singleton Hc _. rewrite Hc in He. subst e.
    by left.
  - simpl. apply NoDup_singleton.
  - intros _. simpl. unfold indexed_pages. simpl. rewrite Htext. simpl.
    by rewrite app_nil_r.
Qed.

(** A call whose parser raises in [find_all], after the index entry was
    made. *)
Lemma traced_unlisted (P : string → Prop) st url content page :
  url ∉ visited st →
  requests_get web url = Some content → soup web content = Some page →
  P url →
  traced web P st [url] [(url, ParserError)]
    (print_error url ParserError
       (set_index url (soup_text page) (log_request url (add_visited url st)))).
Proof.
  intros Hv Hf Hs HP.
  pose proof (page_text_parsed web _ _ _ Hf Hs) as Htext. split.
  { apply grows_print. by apply grows_request_indexed. }
  repeat split.
  - intros u ->%list_elem_of_singleton. by left.
  - intros u ->%list_elem_of_singleton Hnone. congruence.
  - intros u c ->%list_elem_of_singleton _ _. by left.
  - simpl. apply NoDup_singleton.
  - intros Hinv. simpl. unfold indexed_pages. simpl. rewrite Htext. simpl.
    apply dict_set_fresh. intros Hk. by apply Hinv in Hk.
Qed.

(** One more line, for a URL that has none yet. *)
Lemma traced_report (P : string → Prop) st new reports st' url e :
  traced web P st new reports st' →
  url ∈ new →
  url ∉ reports.*1 →
  traced web P st new (reports ++ [(url, e)]) (print_error url e st').
Proof.
  intros (Hg & Ho & Ha & Hf & He & Hd & Hi) Hin Hnew.
  split; [by apply grows_print|]. repeat split.
  - simpl. by rewrite Ho, app_assoc.
  - intros u. rewrite fmap_app, elem_of_app. intros [Hu|Hu]; [by apply Ha|].
    by apply list_elem_of_singleton in Hu as ->.
  - intros u Hu Hnone. apply elem_of_app. left. by apply Hf.
  - intros u c Hu Hc Hfail. apply elem_of_app. left. by eapply He.
  - rewrite fmap_app. apply NoDup_app. split; [done|]. split.
    + intros u Hu ->%list_elem_of_singleton. done.
    + simpl. apply NoDup_singleton.
  - done.
Qed.

Lemma crawl_links_traced self_crawl scope :
  crawl_traced web self_crawl →
  ∀ links st st' out,
    crawl_links web self_crawl scope links st = Some (st', out) →
    ∃ new reports,
      traced web (λ x, String.prefix scope x = true) st new reports st'.
Proof.
  intros Hok links. induction links as [|[href|] rest IH]; intros st st' out; simpl.
  - intros [= <- <-]. exists [], []. apply traced_refl.
  - destruct (String.eqb href ""); [apply IH|].
    destruct (urljoin web scope href) as [target|].
    + destruct (String.prefix scope target) eqn:Hp; [|apply IH].
      destruct (self_crawl target (Some scope) st) as [st1|] eqn:Hc; [|done].
      simpl. intros Hrest.
      apply Hok in Hc as (n1 & r1 & Ht1).
      apply IH in Hrest as (n2 & r2 & Ht2).
      exists (n1 ++ n2), (r1 ++ r2). eapply traced_trans; [|done].
      eapply traced_weaken; [|done]. intros x. by apply scope_narrows.
    + intros [= <- <-]. exists [], []. apply traced_refl.
  - apply IH.
Qed.

Lemma crawl_is_traced (fuel : nat) : crawl_traced web (crawl web fuel).
Proof.
  induction fuel as [|fuel IH]; intros url base_url st st'; simpl; [done|].
  case_bool_decide as Hv.
  - intros [= <-]. exists [], []. apply traced_refl.
  - unfold try_body.
    destruct (requests_get web url) as [content|] eqn:Hf; simpl.
    + destruct (soup web content) as [page|] eqn:Hs; simpl.
      * destruct (soup_anchors page) as [links|] eqn:Hanchors; simpl.
        -- destruct (crawl_links _ _ _ _ _) as [[st2 out]|] eqn:Hl; [|done].
           simpl. intros [= <-].
           pose proof Hl as (n & r & Ht)%(crawl_links_traced _ _ IH).
           assert (Hstart : traced web (in_scope url base_url) st [url] []
                     (set_index url (soup_text page)
                        (log_request url (add_visited url st)))).
           { eapply traced_indexed; [done|done|done| |by left].
             by rewrite Hanchors. }
           assert (Hall : traced web (in_scope url base_url) st
                            ([url] ++ n) ([] ++ r) st2).
           { eapply traced_trans; [done|].
             eapply traced_weaken; [|done]. intros x Hx. by right. }
           unfold handler. simpl. destruct out as [|e]; simpl.
           ++ by exists ([url] ++ n), ([] ++ r).
           ++ exists ([url] ++ n), (([] ++ r) ++ [(url, e)]).
              apply traced_report; [done|by left|].
              simpl. intros Hu.
              destruct Ht as ((_ & _ & _ & Hp & _) & _ & Ha & _).
              apply Ha, Hp in Hu as [Hu _].
              apply Hu. simpl. set_solver.
        -- intros [= <-]. unfold handler. simpl.
           exists [url], [(url, ParserError)].
           eapply traced_unlisted; [done|done|done|by left].
      * intros [= <-]. unfold handler. simpl.
        exists [url], [(url, ParserError)].
        apply traced_failed; [done| | |by left].
        -- by eapply page_text_rejected.
        -- by rewrite Hf.
    + intros [= <-]. unfold handler. simpl.
      exists [url], [(url, RequestException)].
      apply traced_failed; [done| | |by left].
      * by apply page_text_failed.
      * by rewrite Hf.
Qed.

End Trace.

(** * Further properties of the matcher *)

Section Case.

Lemma char_eqb_nocase_sym (x y : ascii) :
  Char.eqb_nocase x y = Char.eqb_nocase y x.
Proof. unfold Char.eqb_nocase. apply Ascii.eqb_sym. Qed.

Lemma char_eqb_nocase_trans (x y z : ascii) :
  Char.eqb_nocase x y = true → Char.eqb_nocase y z = true →
  Char.eqb_nocase x z = true.
Proof.
  unfold Char.eqb_nocase. intros H1%Ascii.eqb_eq H2%Ascii.eqb_eq.
  apply Ascii.eqb_eq. congruence.
Qed.

Lemma eqb_nocase_sym (a b : string) : eqb_nocase a b = eqb_nocase b a.
Proof.
  revert b. induction a as [|x a IH]; intros [|y b]; simpl; try done.
  by rewrite char_eqb_nocase_sym, IH.
Qed.

Lemma eqb_nocase_trans (a b c : string) :
  eqb_nocase a b = true → eqb_nocase b c = true → eqb_nocase a c = true.
Proof.
  revert b c. induction a as [|x a IH]; intros [|y b] [|z c]; simpl; try done.
  intros [H1 H2]%andb_true_iff [H3 H4]%andb_true_iff.
  apply andb_true_iff. split.
  - by eapply char_eqb_nocase_trans.
  - by eapply IH.
Qed.

Lemma eqb_nocase_split (a b t : string) :
  eqb_nocase (a +:+ b) t = true →
  ∃ a' b', t = a' +:+ b' ∧ eqb_nocase a a' = true ∧ eqb_nocase b b' = true.
Proof.
  revert t. induction a as [|x a IH]; intros t.
  - intros H. by exists "", t.
  - destruct t as [|y t]; [done|].
    change (String x a +:+ b) with (String x (a +:+ b)). simpl.
    intros [Hc (a' & b' & -> & Ha & Hb)%IH]%andb_true_iff.
    exists (String y a'), b'. split; [done|]. simpl. by rewrite Hc, Ha.
Qed.

Lemma eqb_nocase_app (a a' b b' : string) :
  eqb_nocase a a' = true → eqb_nocase b b' = true →
  eqb_nocase (a +:+ b) (a' +:+ b') = true.
Proof.
  revert a'. induction a as [|x a IH]; intros [|y a']; try done.
  change (String x a +:+ b) with (String x (a +:+ b)).
  change (String y a' +:+ b') with (String y (a' +:+ b')). simpl.
  intros [Hc Ha]%andb_true_iff Hb. rewrite Hc. simpl. by apply IH.
Qed.

Lemma eqb_nocase_same_word_after (s t : string) :
  eqb_nocase s t = true → Re.word_after s = Re.word_after t.
Proof.
  destruct s as [|x s], t as [|y t]; simpl; try done.
  intros [Hc _]%andb_true_iff. by apply eqb_nocase_is_word.
Qed.

Lemma eqb_nocase_same_word_before (s t : string) :
  eqb_nocase s t = true →
  ∀ p q, Re.word_before p = Re.word_before q →
         Re.word_before (last_char p s) = Re.word_before (last_char q t).
Proof.
  revert t. induction s as [|x s IH]; intros [|y t]; simpl; try done.
  intros [Hc Hs]%andb_true_iff p q _. apply IH; [done|].
  simpl. by apply eqb_nocase_is_word.
Qed.

Lemma bounded_occurrence_keyword_case (keyword keyword' text : string) :
  eqb_nocase keyword keyword' = true →
  bounded_occurrence keyword text → bounded_occurrence keyword' text.
Proof.
  intros Hk (pre & mid & post & -> & He & H1 & H2).
  exists pre, mid, post. repeat split; try done. by eapply eqb_nocase_trans.
Qed.

Lemma bounded_occurrence_text_case (keyword text text' : string) :
  eqb_nocase text text' = true →
  bounded_occurrence keyword text → bounded_occurrence keyword text'.
Proof.
  intros Ht (pre & mid & post & -> & He & H1 & H2).
  apply eqb_nocase_split in Ht as (pre' & rest' & -> & Hpre & Hrest).
  pose proof Hrest as (mid' & post' & -> & Hmid & Hpost)%eqb_nocase_split.
  exists pre', mid', post'. split; [done|]. split; [|split].
  - eapply eqb_nocase_trans; [|done]. by rewrite eqb_nocase_sym.
  - rewrite <- H1. unfold Re.at_boundary. f_equal.
    + symmetry. by apply eqb_nocase_same_word_before.
    + symmetry. by apply eqb_nocase_same_word_after.
  - rewrite <- H2. unfold Re.at_boundary. f_equal.
    + symmetry. apply eqb_nocase_same_word_before; [|done].
      by apply eqb_nocase_app.
    + symmetry. by apply eqb_nocase_same_word_after.
Qed.

Lemma matches_case (keyword keyword' text text' : string) :
  eqb_nocase keyword keyword' = true → eqb_nocase text text' = true →
  matches keyword text = matches keyword' text'.
Proof.
  intros Hk Ht. apply eq_true_iff_eq. rewrite !matches_bounded. split; intros H.
  - by apply (bounded_occurrence_keyword_case keyword),
      (bounded_occurrence_text_case _ text).
  - rewrite eqb_nocase_sym in Hk. rewrite eqb_nocase_sym in Ht.
    by apply (bounded_occurrence_keyword_case keyword'),
      (bounded_occurrence_text_case _ text').
Qed.

Lemma matching_urls_sublist (keyword : string) (items : Index) :
  sublist (matching_urls keyword items) (dict_keys items).
Proof.
  unfold matching_urls, dict_keys.
  induction items as [|[url text] items IH]; simpl; [constructor|].
  destruct (matches keyword text); simpl; by constructor.
Qed.

Lemma matching_urls_app (keyword : string) (a b : Index) :
  matching_urls keyword (a ++ b)
  = matching_urls keyword a ++ matching_urls keyword b.
Proof. unfold matching_urls. by rewrite List.filter_app, List.map_app. Qed.

Lemma matching_urls_indexed_pages (web : Web) (keyword : string)
    (new : list string) :
  matching_urls keyword (indexed_pages web new)
  = List.filter (fetch_matches web keyword) new.
Proof.
  unfold matching_urls, indexed_pages, fetch_matches.
  induction new as [|x new IH]; simpl; [done|].
  destruct (page_text web x) as [text|]; simpl; [|exact IH].
  destruct (matches keyword text); simpl; [f_equal|]; exact IH.
Qed.

Lemma dict_keys_indexed_pages_sublist (web : Web) (new : list string) :
  sublist (dict_keys (indexed_pages web new)) new.
Proof.
  unfold dict_keys, indexed_pages.
  induction new as [|x new IH]; simpl; [constructor|].
  destruct (page_text web x); simpl; by constructor.
Qed.

End Case.

(** * Further properties of the crawler *)

(** X1: crawling a URL again is a no-op.  Once a call of [crawl] on [url]
    has returned, a later call on the same URL, with any scope base,
    returns at once and leaves the object as it is. *)
Theorem crawl_again_is_noop (web : Web) (fuel fuel' : nat) (url : string)
    (base_url base_url' : option string) (st st' : WebCrawler) :
  crawl web fuel url base_url st = Some st' →
  crawl web (S fuel') url base_url' st' = Some st'.
Proof.
  intros Hvisited%crawl_visits. simpl. by rewrite bool_decide_eq_true_2.
Qed.

Lemma crawl_again_is_noop_witness :
  ∃ st',
    crawl Fixture.web 3 "https://cycle.test" None new_crawler = Some st'
    ∧ crawl Fixture.web 1 "https://cycle.test" (Some "https://other.test") st'
      = Some st'.
Proof.
  eexists. split; [evaluate|].
  apply (crawl_again_is_noop Fixture.web 3 0 "https://cycle.test" None
           (Some "https://other.test") new_crawler).
  evaluate.
Defined.

(** X2: a call of [crawl] only adds to the object.  [visited] grows, the
    requests and the printed lines of the call come after the earlier
    ones, every key of the index stays a key, and a URL that was visited
    before the call is neither requested again nor re-indexed. *)
Theorem crawl_keeps_earlier_state (web : Web) (fuel : nat) (url : string)
    (base_url : option string) (st st' : WebCrawler) :
  crawl web fuel url base_url st = Some st' →
  visited st ⊆ visited st'
  ∧ (∀ k, In k (dict_keys (index st)) → In k (dict_keys (index st')))
  ∧ (∀ x, x ∈ visited st → dict_get x (index st') = dict_get x (index st))
  ∧ ∃ new reports,
      requests st' = requests st ++ new
      ∧ stdout st' = stdout st ++ reports
      ∧ ∀ x, x ∈ visited st → x ∉ new.
Proof.
  intros (new & reports & (Hr & _ & Hv & Hp & Hi) & Ho & _)%crawl_is_traced.
  split; [rewrite Hv; set_solver|]. split; [|split].
  - intros k [v Hk]%dict_keys_get. apply dict_keys_get.
    rewrite Hi. unfold indexed_after. rewrite Hk.
    case_bool_decide; [|done]. by destruct (page_text web k).
  - intros x Hx. rewrite Hi. unfold indexed_after.
    rewrite bool_decide_eq_false_2; [done|]. intros Hn. by apply Hp in Hn as [Hn _].
  - exists new, reports. split; [done|]. split; [done|].
    intros x Hx Hn. by apply Hp in Hn as [Hn _].
Qed.

Lemma crawl_keeps_earlier_state_witness :
  ∃ st1 st2,
    crawl Fixture.web 3 "https://dup.test" None new_crawler = Some st1
    ∧ crawl Fixture.web 3 "https://cycle.test" None st1 = Some st2
    ∧ visited st1 ⊆ visited st2
    ∧ (∀ k, In k (dict_keys (index st1)) → In k (dict_keys (index st2)))
    ∧ (∀ x, x ∈ visited st1 → dict_get x (index st2) = dict_get x (index st1))
    ∧ ∃ new reports,
        requests st2 = requests st1 ++ new
        ∧ stdout st2 = stdout st1 ++ reports
        ∧ ∀ x, x ∈ visited st1 → x ∉ new.
Proof.
  eexists. eexists. split; [evaluate|]. split; [evaluate|].
  eapply (crawl_keeps_earlier_state Fixture.web 3 "https://cycle.test" None).
  evaluate.
Defined.

(** X3: the index follows the order of the requests.  If the keys of the
    index are visited URLs, which is so for a fresh crawler and is kept by
    [crawl], a call appends to the index one entry for each URL it
    requested with success and whose content the parser accepted, in the
    order of the requests, with the text of the page; earlier entries
    keep their place and their text. *)
Theorem crawl_appends_to_index (web : Web) (fuel : nat) (url : string)
    (base_url : option string) (st st' : WebCrawler) :
  keys_visited st →
  crawl web fuel url base_url st = Some st' →
  keys_visited st'
  ∧ ∃ new,
      requests st' = requests st ++ new
      ∧ index st' = index st ++ indexed_pages web new.
Proof.
  intros Hinv (new & reports & Hg & _ & _ & _ & _ & _ & Hi)%crawl_is_traced.
  split; [by eapply grows_keys_visited|].
  exists new. split; [by destruct Hg|by apply Hi].
Qed.

Lemma crawl_appends_to_index_witness :
  ∃ st',
    crawl Fixture.web 4 "https://fail.test" None new_crawler = Some st'
    ∧ keys_visited st'
    ∧ ∃ new,
        requests st' = requests new_crawler ++ new
        ∧ index st' = index new_crawler ++ indexed_pages Fixture.web new.
Proof.
  eexists. split; [evaluate|].
  apply (crawl_appends_to_index Fixture.web 4 "https://fail.test" None
           new_crawler).
  - intros k [].
  - evaluate.
Defined.

(** The texts of the pages of the fixtures are ASCII texts. *)
Lemma fixture_ascii_web : ascii_web Fixture.web.
Proof.
  intros url text. unfold page_text. simpl.
  destruct (Fixture.by_url url) as [p|] eqn:Hfind; [|done].
  apply List.find_some in Hfind as [Hin _]. simpl in Hin.
  repeat (destruct Hin as [<-|Hin]; [vm_compute; by intros [= <-]|]).
  done.
Qed.

(** X4: searching after crawling, on ASCII texts.  Under the same
    condition, for an ASCII keyword, an index of ASCII texts and pages
    whose texts are ASCII, [search] after a call of [crawl] returns what
    it returned before the call, followed by the URLs requested by the
    call whose fetch succeeded, whose content the parser accepted and
    whose text matches the keyword, in the order of the requests. *)
Theorem search_after_crawl (web : Web) (fuel : nat) (url : string)
    (base_url : option string) (st st' : WebCrawler) (keyword : string) :
  is_ascii keyword = true →
  ascii_texts (index st) →
  ascii_web web →
  keys_visited st →
  crawl web fuel url base_url st = Some st' →
  ∃ new earlier,
    requests st' = requests st ++ new
    ∧ search st keyword = Some earlier
    ∧ search st' keyword
      = Some (earlier ++ List.filter (fetch_matches web keyword) new).
Proof.
  intros _ _ _ Hinv
    (new & reports & Hg & _ & _ & _ & _ & _ & Hi)%crawl_is_traced.
  exists new, (matching_urls keyword (index st)).
  split; [by destruct Hg|]. unfold search. rewrite !search_items_eq.
  split; [done|].
  by rewrite (Hi Hinv), matching_urls_app, matching_urls_indexed_pages.
Qed.

Lemma search_after_crawl_witness :
  ∃ st' new earlier,
    crawl Fixture.web 3 "https://example.com" None new_crawler = Some st'
    ∧ requests st' = requests new_crawler ++ new
    ∧ search new_crawler "about" = Some earlier
    ∧ search st' "about"
      = Some (earlier ++ List.filter (fetch_matches Fixture.web "about") new).
Proof.
  eexists.
  destruct (search_after_crawl Fixture.web 3 "https://example.com" None
              new_crawler _ "about" ltac:(evaluate) ltac:(constructor)
              fixture_ascii_web (λ k (H : In k []), match H with end)
              ltac:(evaluate))
    as (new & earlier & H).
  exists new, earlier. split; [evaluate|]. exact H.
Defined.

(** X5: no URL is listed twice.  If the keys of the index are visited URLs
    and pairwise distinct, they still are after a call of [crawl], and
    every result of [search] lists each URL at most once. *)
Theorem crawl_keeps_results_unique (web : Web) (fuel : nat) (url : string)
    (base_url : option string) (st st' : WebCrawler) :
  keys_visited st →
  NoDup (dict_keys (index st)) →
  crawl web fuel url base_url st = Some st' →
  NoDup (dict_keys (index st'))
  ∧ ∀ keyword results, search st' keyword = Some results → NoDup results.
Proof.
  intros Hinv Hnd
    (new & reports & Hg & _ & _ & _ & _ & _ & Hi)%crawl_is_traced.
  destruct Hg as (_ & Hn & _ & Hp & _).
  assert (Hkeys : NoDup (dict_keys (index st'))).
  { rewrite (Hi Hinv). unfold dict_keys. rewrite List.map_app.
    apply NoDup_app. split; [done|]. split.
    - intros k Hk%list_elem_of_In%Hinv Hk'.
      eapply elem_of_sublist in Hk'; [|apply dict_keys_indexed_pages_sublist].
      by apply Hp in Hk' as [Hk' _].
    - eapply sublist_NoDup; [done|apply dict_keys_indexed_pages_sublist]. }
  split; [done|]. intros keyword results. unfold search.
  rewrite search_items_eq. intros [= <-].
  eapply sublist_NoDup; [done|apply matching_urls_sublist].
Qed.

Lemma crawl_keeps_results_unique_witness :
  ∃ st',
    crawl Fixture.web 3 "https://dup.test" None new_crawler = Some st'
    ∧ NoDup (dict_keys (index st'))
    ∧ ∀ keyword results, search st' keyword = Some results → NoDup results.
Proof.
  eexists. split; [evaluate|].
  apply (crawl_keeps_results_unique Fixture.web 3 "https://dup.test" None
           new_crawler).
  - intros k [].
  - constructor.
  - evaluate.
Defined.



(** X11: the scope base does not change during a crawl.  When the scope
    base [base_url or url] of the first call is not empty, every other
    call that can be reached from it has this same string as its
    [base_url], and a URL that starts with it. *)
Theorem scope_base_is_fixed (web : Web) (url0 : string)
    (base0 : option string) (url : string) (base_url : option string) :
  base_or base0 url0 ≠ "" →
  call_reach web url0 base0 url base_url →
  (url = url0 ∧ base_url = base0)
  ∨ (base_url = Some (base_or base0 url0)
     ∧ String.prefix (base_or base0 url0) url = true).
Proof.
  intros Hne Hreach.
  induction Hreach as [|url base_url content href target _ IH Hf Hin Hh Hj Hp];
    [by left|].
  right. destruct IH as [[-> ->]|[-> Hpre]]; [done|].
  simpl in *. apply String.eqb_neq in Hne. by rewrite Hne in *.
Qed.

Lemma scope_base_is_fixed_witness :
  ("https://cycle.test/b" = "https://cycle.test"
   ∧ Some "https://cycle.test" = None)
  ∨ (Some "https://cycle.test" = Some (base_or None "https://cycle.test")
     ∧ String.prefix (base_or None "https://cycle.test") "https://cycle.test/b"
       = true).
Proof.
  apply (scope_base_is_fixed Fixture.web "https://cycle.test" None
           "https://cycle.test/b" (Some "https://cycle.test")).
  - vm_compute. intros H. discriminate H.
  - apply (reach_link Fixture.web "https://cycle.test" None
             "https://cycle.test" None "<a href='/b'>to B</a>" "/b"
             "https://cycle.test/b").
    + constructor.
    + evaluate.
    + vm_compute. by left.
    + vm_compute. intros H. discriminate H.
    + evaluate.
    + evaluate.
Defined.

(** * Further properties of search and of the printed results *)


(** X8: on ASCII texts, case does not count, neither in the keyword nor
    in the text.  Two ASCII keywords that differ by the case of their
    letters only give the same result, on two indexes with the same URLs
    whose ASCII texts differ by the case of their letters only. *)
Theorem search_ignores_case (st st' : WebCrawler) (keyword keyword' : string) :
  is_ascii keyword = true →
  is_ascii keyword' = true →
  ascii_texts (index st) →
  ascii_texts (index st') →
  eqb_nocase keyword keyword' = true →
  same_pages_nocase (index st) (index st') →
  search st keyword = search st' keyword'.
Proof.
  intros _ _ _ _ Hk Hpages. unfold search. rewrite !search_items_eq. f_equal.
  unfold matching_urls, same_pages_nocase in *.
  induction Hpages as [|[u t] [u' t'] a b [Hu Ht] _ IH]; simpl in *; [done|].
  subst u'. rewrite (matches_case keyword keyword' t t' Hk Ht).
  destruct (matches keyword' t'); simpl; by rewrite IH.
Qed.

Lemma search_ignores_case_witness :
  search (set_index "page1" "KEYword in caps" new_crawler) "keyword"
  = search (set_index "page1" "Keyword In Caps" new_crawler) "KeyWord".
Proof.
  apply search_ignores_case; [evaluate|evaluate| | |evaluate|].
  - constructor; [evaluate|constructor].
  - constructor; [evaluate|constructor].
  - constructor; [|constructor]. split; [done|evaluate].
Defined.

Lemma search_whole_word_witness :
  ∃ results,
    search (set_index "page1" "category theory" new_crawler) "category"
    = Some results
    ∧ ∀ url, In url results ↔
             ∃ text, In (url, text)
                       (index (set_index "page1" "category theory" new_crawler))
                     ∧ whole_word_occurrence "category" text.
Proof.
  apply (search_whole_word
           (set_index "page1" "category theory" new_crawler) "category").
  - evaluate.
  - constructor; [evaluate|constructor].
  - evaluate.
Defined.

(** X10: on ASCII texts, an ASCII keyword is matched as a literal text,
    whatever characters it holds.  [search] returns (it does not raise);
    the result lists, in the order of the index, the URLs whose text
    holds the characters of the keyword, compared without case, between
    two word boundaries of [re]. *)
Theorem search_literal_keyword (st : WebCrawler) (keyword : string) :
  is_ascii keyword = true →
  ascii_texts (index st) →
  ∃ results,
    search st keyword = Some results
    ∧ sublist results (dict_keys (index st))
    ∧ ∀ url, In url results ↔
             ∃ text, In (url, text) (index st) ∧ bounded_occurrence keyword text.
Proof.
  intros _ _. unfold search. rewrite search_items_eq. eexists. split; [done|].
  split; [apply matching_urls_sublist|].
  intros url. rewrite elem_matching_urls.
  split; intros (text & Hin & Hm); exists text; (split; [done|]);
    by apply matches_bounded.
Qed.

Lemma search_literal_keyword_witness :
  ∃ results,
    search (set_index "page2" "axb" (set_index "page1" "a.b" new_crawler)) "a.b"
    = Some results
    ∧ sublist results
        (dict_keys
           (index (set_index "page2" "axb" (set_index "page1" "a.b" new_crawler))))
    ∧ ∀ url, In url results ↔
             ∃ text,
               In (url, text)
                 (index (set_index "page2" "axb"
                           (set_index "page1" "a.b" new_crawler)))
               ∧ bounded_occurrence "a.b" text.
Proof.
  apply search_literal_keyword.
  - evaluate.
  - repeat (constructor; [evaluate|]). constructor.
Defined.
